(** * Black-Scholes pricer and implied-volatility solver (Model.py)

    Two shallow embeddings of [Model.py].

    The first reads Python floats as exact reals ([R]): every arithmetic
    operation is the real one, so rounding, overflow, underflow and NaN do
    not occur.  [math.exp], [math.log] and [math.sqrt] are the Standard
    Library's [exp], [ln] and [sqrt]; [math.erf] is defined below as the
    Riemann integral that defines the error function.  The statements about
    formulas, derivatives and the control flow of the solver are made over
    this reading.

    The second, in module [F64], reads them as what they are: binary64
    floats with IEEE 754 arithmetic, CPython's [ZeroDivisionError],
    [OverflowError] and "math domain error", and the C library's [exp],
    [log] and [erf] as parameters fixed only at the special values.  It
    shows what the first reading hides: where the code leaves the formulas
    at extreme inputs and at NaN. *)

From Stdlib Require Import Reals Lra List String ZArith Lia.
From Stdlib Require Import FunctionalExtensionality.
From Stdlib Require PrimFloat FloatAxioms.
Import ListNotations.
Open Scope R_scope.
Set Warnings "-inexact-float".

(** ** The [math] module *)

Module PyMath.

(** The integrand of the error function, [exp (-t^2)]. *)
Definition gauss (t : R) : R := exp (- (t * t)).

Lemma gauss_derivable (t : R) : derivable_pt gauss t.
Proof. unfold gauss. reg. Qed.

Lemma gauss_continuous (t : R) : continuity_pt gauss t.
Proof. apply derivable_continuous_pt, gauss_derivable. Qed.

Definition gauss_integrable (a b : R) : Riemann_integrable gauss a b.
Proof.
  destruct (Rle_dec a b) as [Hab | Hab].
  - apply continuity_implies_RiemannInt; [exact Hab | intros; apply gauss_continuous].
  - apply RiemannInt_P1, continuity_implies_RiemannInt;
      [lra | intros; apply gauss_continuous].
Qed.

(** [math.erf]: [erf x = 2/sqrt(pi) * integral of exp(-t^2) for t from 0 to x]. *)
Definition erf (x : R) : R := 2 / sqrt PI * RiemannInt (gauss_integrable 0 x).

(** Python's [max(a, b)] keeps [a] unless [b > a]; [min(a, b)] keeps [a]
    unless [b < a]. *)
Definition py_max (a b : R) : R := if Rgt_dec b a then b else a.
Definition py_min (a b : R) : R := if Rlt_dec b a then b else a.

End PyMath.
Import PyMath.

(** ** Exceptions *)

Inductive exn : Type :=
| ValueError (msg : string).

Inductive result (A : Type) : Type :=
| Ok (a : A)
| Raise (e : exn).
Arguments Ok {A} a.
Arguments Raise {A} e.

Definition bind_result {A B : Type} (m : result A) (k : A -> result B) : result B :=
  match m with
  | Ok a => k a
  | Raise e => Raise e
  end.

Declare Scope result_scope.
Delimit Scope result_scope with result.
Notation "x <- m ;; k" := (bind_result m (fun x => k))
  (at level 61, m at next level, right associativity) : result_scope.
Notation "' pat <- m ;; k" := (bind_result m (fun x => match x with pat => k end))
  (at level 61, pat pattern, m at next level, right associativity) : result_scope.

(** ** Math behind the model *)

Definition Rleb (x y : R) : bool := if Rle_dec x y then true else false.

(** [any(p(v) for v in vs)] *)
Definition any {A : Type} (p : A -> bool) (vs : list A) : bool := existsb p vs.

Definition gate_msg : string := "S, K, T, sigma must be > 0.".
Definition option_msg : string := "option must be 'call' or 'put'".

Definition _phi (x : R) : R := exp (-0.5 * x * x) / sqrt (2 * PI).

Definition _Phi (x : R) : R := 0.5 * (1.0 + erf (x / sqrt 2.0)).

Definition _d1_d2 (S K T r sigma q : R) : result (R * R) :=
  if any (fun v => Rleb v 0) [S; K; T; sigma] then
    Raise (ValueError gate_msg)
  else
    let vsqrtT := sigma * sqrt T in
    let d1 := (ln (S / K) + (r - q + 0.5 * sigma * sigma) * T) / vsqrtT in
    let d2 := d1 - vsqrtT in
    Ok (d1, d2).

Definition bs_price (S K T r sigma q : R) (option : string) : result R :=
  ('(d1, d2) <- _d1_d2 S K T r sigma q ;;
   let disc_r := exp (- r * T) in
   let disc_q := exp (- q * T) in
   if (option =? "call")%string then
     Ok (S * disc_q * _Phi d1 - K * disc_r * _Phi d2)
   else if (option =? "put")%string then
     Ok (K * disc_r * _Phi (- d2) - S * disc_q * _Phi (- d1))
   else
     Raise (ValueError option_msg))%result.

Record Greeks : Type := mkGreeks {
  delta : R;
  gamma : R;
  vega : R;
  theta : R;
  rho : R
}.

Definition bs_greeks (S K T r sigma q : R) (option : string) : result Greeks :=
  ('(d1, d2) <- _d1_d2 S K T r sigma q ;;
   let disc_r := exp (- r * T) in
   let disc_q := exp (- q * T) in
   let pdf := _phi d1 in
   let '(delta, theta, rho) :=
     if (option =? "call")%string then
       (disc_q * _Phi d1,
        - S * disc_q * pdf * sigma / (2 * sqrt T)
          - r * K * disc_r * _Phi d2
          + q * S * disc_q * _Phi d1,
        K * T * disc_r * _Phi d2)
     else
       (disc_q * (_Phi d1 - 1.0),
        - S * disc_q * pdf * sigma / (2 * sqrt T)
          + r * K * disc_r * _Phi (- d2)
          - q * S * disc_q * _Phi (- d1),
        - K * T * disc_r * _Phi (- d2)) in
   let gamma := disc_q * pdf / (S * sigma * sqrt T) in
   let vega := S * disc_q * pdf * sqrt T in
   Ok (mkGreeks delta gamma vega theta rho))%result.

(** ** The implied-volatility solver

    The solver calls [bs_price] and [bs_greeks]; each call is recorded in a
    log, so that the number and order of pricing evaluations can be stated.
    A computation yields its result (a value or a raised exception) and the
    calls made up to that point. *)

Inductive call : Type :=
| PriceCall (sigma : R)
| GreeksCall (sigma : R).

Definition M (A : Type) : Type := (result A * list call)%type.

Definition ret {A : Type} (a : A) : M A := (Ok a, []).

Definition bind {A B : Type} (m : M A) (k : A -> M B) : M B :=
  match m with
  | (Ok a, log) => let (rb, log') := k a in (rb, log ++ log')
  | (Raise e, log) => (Raise e, log)
  end.

Definition outcome {A : Type} (m : M A) : result A := fst m.
Definition calls {A : Type} (m : M A) : list call := snd m.

Definition is_price_call (c : call) : bool :=
  match c with
  | PriceCall _ => true
  | GreeksCall _ => false
  end.

Definition price_evaluations {A : Type} (m : M A) : nat :=
  List.length (filter is_price_call (calls m)).

Definition greeks_evaluations {A : Type} (m : M A) : nat :=
  List.length (filter (fun c => negb (is_price_call c)) (calls m)).

Declare Scope solver_scope.
Delimit Scope solver_scope with solver.
Notation "x <- m ;; k" := (bind m (fun x => k))
  (at level 61, m at next level, right associativity) : solver_scope.

(** How the Newton [for] loop is left: by [return], by [break], or by
    running out of [range(max_iter)]. *)
Inductive newton_exit : Type :=
| Return (v : R)
| Break
| Exhausted.

Section Solver.

Variables target_price S K T r q : R.
Variable option : string.

Definition price_call (sigma : R) : M R :=
  (bs_price S K T r sigma q option, [PriceCall sigma]).

Definition greeks_call (sigma : R) : M Greeks :=
  (bs_greeks S K T r sigma q option, [GreeksCall sigma]).

(** [for _ in range(n)] of the Newton phase, entered with guess [sigma]. *)
Fixpoint newton_loop (tol : R) (n : nat) (sigma : R) : M newton_exit :=
  match n with
  | O => ret Exhausted
  | Datatypes.S n' =>
      (price <- price_call sigma ;;
       let diff := price - target_price in
       if Rlt_dec (Rabs diff) tol then
         ret (Return (py_max 1e-12 sigma))
       else
         g <- greeks_call sigma ;;
         let vega := vega g in
         if Rlt_dec vega 1e-12 then
           ret Break
         else
           newton_loop tol n' (py_min 5.0 (py_max 1e-6 (sigma - diff / vega))))%solver
  end.

(** [for _ in range(n)] of the bisection phase on the bracket [lo, hi],
    followed by the final [return 0.5 * (lo + hi)]. *)
Fixpoint bisection_loop (tol : R) (n : nat) (lo hi : R) : M R :=
  match n with
  | O => ret (0.5 * (lo + hi))
  | Datatypes.S n' =>
      let mid := 0.5 * (lo + hi) in
      (pmid <- price_call mid ;;
       if Rlt_dec (Rabs (pmid - target_price)) tol then
         ret mid
       else if Rgt_dec pmid target_price then
         bisection_loop tol n' lo mid
       else
         bisection_loop tol n' mid hi)%solver
  end.

Definition implied_vol (seed tol : R) (max_iter : Z) : M R :=
  let sigma := py_max 1e-6 seed in
  (ex <- newton_loop tol (Z.to_nat max_iter) sigma ;;
   match ex with
   | Return v => ret v
   | Break | Exhausted => bisection_loop tol 200 1e-6 5.0
   end)%solver.

End Solver.

(** The keyword defaults of [implied_vol]. *)
Definition default_seed : R := 0.2.
Definition default_tol : R := 1e-8.
Definition default_max_iter : Z := 100%Z.

(** * The specification's reading of the model

    The definitions of this part follow the words of the specification, not
    the code: the closed two-valued option tag, the closed-form price, and
    the two phases of the solver as step relations.  The theorems below
    compare them with the embedding above. *)

Module Spec.

(** OptionType: a closed two-valued tag. *)
Inductive OptionType : Type := Call | Put.

(** The string the code uses for each tag. *)
Definition option_string (o : OptionType) : string :=
  match o with
  | Call => "call"
  | Put => "put"
  end.

(** [d1 = (ln(S/K) + (r - q + 0.5 sigma^2) T) / (sigma sqrt T)],
    [d2 = d1 - sigma sqrt T]. *)
Definition d1 (S K T r sigma q : R) : R :=
  (ln (S / K) + (r - q + sigma ^ 2 / 2) * T) / (sigma * sqrt T).

Definition d2 (S K T r sigma q : R) : R :=
  d1 S K T r sigma q - sigma * sqrt T.

Definition discR (r T : R) : R := exp (- (r * T)).
Definition discQ (q T : R) : R := exp (- (q * T)).

(** Call: [S discQ Phi(d1) - K discR Phi(d2)];
    Put: [K discR Phi(-d2) - S discQ Phi(-d1)]. *)
Definition price (S K T r sigma q : R) (o : OptionType) : R :=
  match o with
  | Call => S * discQ q T * _Phi (d1 S K T r sigma q)
            - K * discR r T * _Phi (d2 S K T r sigma q)
  | Put => K * discR r T * _Phi (- d2 S K T r sigma q)
           - S * discQ q T * _Phi (- d1 S K T r sigma q)
  end.

(** vega = [S discQ phi(d1) sqrt T]. *)
Definition vega (S K T r sigma q : R) : R :=
  S * discQ q T * _phi (d1 S K T r sigma q) * sqrt T.

Definition clamp (x lo hi : R) : R :=
  if Rlt_dec x lo then lo else if Rlt_dec hi x then hi else x.

(** How the Newton phase ends: with a volatility, or by handing over to
    the bisection phase. *)
Inductive phase_end : Type :=
| Converged (v : R)
| ToBisection.

Section Phases.

(** The price and the vega as functions of the volatility alone. *)
Variables price_at vega_at : R -> R.
Variables target tol : R.

(** [newton_phase budget sigma e]: the Newton phase, with [budget] steps
    left and the guess [sigma], ends with [e]. *)
Inductive newton_phase : nat -> R -> phase_end -> Prop :=
| newton_budget_exhausted (sigma : R) :
    newton_phase 0 sigma ToBisection
| newton_converged (n : nat) (sigma : R) :
    Rabs (price_at sigma - target) < tol ->
    newton_phase (S n) sigma (Converged (Rmax 1e-12 sigma))
| newton_flat_vega (n : nat) (sigma : R) :
    ~ Rabs (price_at sigma - target) < tol ->
    vega_at sigma < 1e-12 ->
    newton_phase (S n) sigma ToBisection
| newton_update (n : nat) (sigma : R) (e : phase_end) :
    ~ Rabs (price_at sigma - target) < tol ->
    ~ vega_at sigma < 1e-12 ->
    newton_phase n
      (clamp (sigma - (price_at sigma - target) / vega_at sigma) 1e-6 5.0) e ->
    newton_phase (S n) sigma e.

(** [bisection_phase budget lo hi v]: the bisection phase, with [budget]
    steps left on the bracket [lo, hi], returns [v]. *)
Inductive bisection_phase : nat -> R -> R -> R -> Prop :=
| bisection_budget_exhausted (lo hi : R) :
    bisection_phase 0 lo hi ((lo + hi) / 2)
| bisection_hit (n : nat) (lo hi : R) :
    Rabs (price_at ((lo + hi) / 2) - target) < tol ->
    bisection_phase (S n) lo hi ((lo + hi) / 2)
| bisection_shrink_above (n : nat) (lo hi v : R) :
    ~ Rabs (price_at ((lo + hi) / 2) - target) < tol ->
    price_at ((lo + hi) / 2) > target ->
    bisection_phase n lo ((lo + hi) / 2) v ->
    bisection_phase (S n) lo hi v
| bisection_shrink_below (n : nat) (lo hi v : R) :
    ~ Rabs (price_at ((lo + hi) / 2) - target) < tol ->
    price_at ((lo + hi) / 2) <= target ->
    bisection_phase n ((lo + hi) / 2) hi v ->
    bisection_phase (S n) lo hi v.

End Phases.

End Spec.

(** ** How the code and the specification are compared *)

(** The end of the Newton phase that an exit of the Newton loop stands for:
    [break] and an exhausted [range] both hand over to the bisection. *)
Definition phase_end_of (ex : newton_exit) : Spec.phase_end :=
  match ex with
  | Return v => Spec.Converged v
  | Break | Exhausted => Spec.ToBisection
  end.

(** The value of a call that returned, and [0] where it raised: the price
    and the Greeks as total functions of one argument, for statements about
    their derivatives. *)
Definition price_value (S K T r sigma q : R) (option : string) : R :=
  match bs_price S K T r sigma q option with
  | Ok v => v
  | Raise _ => 0
  end.

Definition delta_value (S K T r sigma q : R) (option : string) : R :=
  match bs_greeks S K T r sigma q option with
  | Ok g => delta g
  | Raise _ => 0
  end.

(** The derivative of [d1] in the time to expiry; only its difference with
    that of [d2] matters below. *)
Definition d1_T (S K T r sigma q : R) : R :=
  ((r - q + sigma ^ 2 / 2) * (sigma * sqrt T)
   - sigma * / (2 * sqrt T) * (ln (S / K) + (r - q + sigma ^ 2 / 2) * T))
  / Rsqr (sigma * sqrt T).

(** The volatility of the solver's first pricing evaluation: the floored
    seed when the Newton loop runs, the first midpoint otherwise. *)
Definition first_sigma (seed : R) (max_iter : Z) : R :=
  if (0 <? max_iter)%Z then py_max 1e-6 seed else 0.5 * (1e-6 + 5.0).

(** The volatility at which a logged call was made. *)
Definition sigma_of (c : call) : R :=
  match c with
  | PriceCall sigma => sigma
  | GreeksCall sigma => sigma
  end.

(** ** The console front end

    Standard input is a finite list of lines; [input] writes its prompt and
    reads the next line, and raises [EOFError] when no line is left.
    Standard output is the list of prompts and printed lines.  The string
    functions of the library ([str.strip], [str.lower], [float] on a string,
    the [.6f] format) are parameters of the model. *)

Inductive io_exn : Type :=
| EOFError
| Propagated (e : exn).

Inductive io_result (A : Type) : Type :=
| IoOk (a : A)
| IoRaise (e : io_exn).
Arguments IoOk {A} a.
Arguments IoRaise {A} e.

Inductive output : Type :=
| Prompt (s : string)
| Line (s : string).

(** A console computation: from the lines left on standard input to its
    result, the lines still left, and what it wrote. *)
Definition IO (A : Type) : Type :=
  list string -> io_result A * list string * list output.

Definition io_ret {A : Type} (a : A) : IO A := fun stdin => (IoOk a, stdin, []).

Definition io_bind {A B : Type} (m : IO A) (k : A -> IO B) : IO B :=
  fun stdin =>
    match m stdin with
    | (IoOk a, rest, out) =>
        let '(rb, rest', out') := k a rest in (rb, rest', out ++ out')
    | (IoRaise e, rest, out) => (IoRaise e, rest, out)
    end.

Declare Scope io_scope.
Delimit Scope io_scope with io.
Notation "x <- m ;; k" := (io_bind m (fun x => k))
  (at level 61, m at next level, right associativity) : io_scope.

Definition input (prompt : string) : IO string :=
  fun stdin =>
    match stdin with
    | [] => (IoRaise EOFError, [], [Prompt prompt])
    | line :: rest => (IoOk line, rest, [Prompt prompt])
    end.

Definition print (s : string) : IO unit :=
  fun stdin => (IoOk tt, stdin, [Line s]).

(** A call of the pricing library: its exception propagates. *)
Definition call_lib {A : Type} (res : result A) : IO A :=
  fun stdin =>
    match res with
    | Ok a => (IoOk a, stdin, [])
    | Raise e => (IoRaise (Propagated e), stdin, [])
    end.

Definition newline : string := String (Ascii.ascii_of_nat 10) EmptyString.

Section Console.

Variables strip lower : string -> string.
Variable float : string -> result R.
Variable format6 : R -> string.

Section Prompting.

(** [cast] on the text typed, [cast] on the default object, and the [str]
    of the default object in the prompt. *)
Variables A D : Type.
Variable cast : string -> result A.
Variable cast_default : D -> result A.
Variable str : D -> string.

(** [_f(prompt, default, cast)]: each turn of [while True] reads one line,
    so the loop is a recursion on the lines left. *)
Fixpoint _f (prompt : string) (default : option D) (stdin : list string)
  : io_result A * list string * list output :=
  let text :=
    (prompt
     ++ match default with
        | Some d => " [" ++ str d ++ "]"
        | None => ""
        end
     ++ ": ")%string in
  match stdin with
  | [] => (IoRaise EOFError, [], [Prompt text])
  | line :: rest =>
      let s := strip line in
      match (s =? "")%string, default with
      | true, Some d =>
          match cast_default d with
          | Ok v => (IoOk v, rest, [Prompt text])
          | Raise e => (IoRaise (Propagated e), rest, [Prompt text])
          end
      | _, _ =>
          match cast s with
          | Ok v => (IoOk v, rest, [Prompt text])
          | Raise _ =>
              let '(res, rest', out) := _f prompt default rest in
              (res, rest', Prompt text :: Line "Invalid. Try again." :: out)
          end
      end
  end.

(** A line that [_f] turns down: [cast] raises on its stripped text, and
    the default does not apply to it. *)
Definition turned_down (default : option D) (line : string) : Prop :=
  (strip line = ""%string -> default = None)
  /\ exists e, cast (strip line) = Raise e.

Definition prompt_text (prompt : string) (default : option D) : string :=
  (prompt
   ++ match default with
      | Some d => " [" ++ str d ++ "]"
      | None => ""
      end
   ++ ": ")%string.

End Prompting.

(** [_option()] *)
Fixpoint _option (stdin : list string) : io_result string * list string * list output :=
  match stdin with
  | [] => (IoRaise EOFError, [], [Prompt "Option type (call/put): "])
  | line :: rest =>
      let o := lower (strip line) in
      if ((o =? "call")%string || (o =? "put")%string)%bool then
        (IoOk o, rest, [Prompt "Option type (call/put): "])
      else
        let '(res, rest', out) := _option rest in
        (res, rest',
         Prompt "Option type (call/put): " :: Line "Type 'call' or 'put'." :: out)
  end.

(** [_f(prompt)], with the defaults [default=None] and [cast=float]. *)
Definition _f_float (prompt : string) : IO R :=
  _f R string float float (fun d => d) prompt None.

Definition main : IO unit :=
  (_ <- print "Black–Scholes Options Pricing Model" ;;
   S <- _f_float "Spot S" ;;
   K <- _f_float "Strike K" ;;
   T <- _f_float "Time to expiry T in years" ;;
   r <- _f_float "Risk-free rate r (in decimals)" ;;
   q <- _f_float "Dividend yield q (0 if none)" ;;
   sigma <- _f_float "Volatility sigma (in decimals)" ;;
   option <- _option ;;
   price <- call_lib (bs_price S K T r sigma q option) ;;
   g <- call_lib (bs_greeks S K T r sigma q option) ;;
   _ <- print (newline ++ "--- Results ---")%string ;;
   _ <- print ("Price: " ++ format6 price)%string ;;
   _ <- print ("Delta: " ++ format6 (delta g))%string ;;
   _ <- print ("Gamma: " ++ format6 (gamma g))%string ;;
   _ <- print ("Vega : " ++ format6 (vega g))%string ;;
   _ <- print ("Theta: " ++ format6 (theta g))%string ;;
   _ <- print ("Rho  : " ++ format6 (rho g))%string ;;
   ans <- input (newline ++ "Compute implied vol from a market price? (y/n): ")%string ;;
   let ans := lower (strip ans) in
   if (ans =? "y")%string then
     target <- _f_float "Market option price" ;;
     iv <- call_lib (outcome (implied_vol target S K T r q option
                                sigma default_tol default_max_iter)) ;;
     print ("Implied vol: " ++ format6 iv)%string
   else
     io_ret tt)%io.

End Console.

(** * The same code over binary64 floats

    [Model.py] again, this time on IEEE 754 binary64 numbers (the kernel's
    primitive floats) and with the exceptions of float arithmetic: [a / b]
    raises [ZeroDivisionError] when [b] is zero, and [math.exp], [math.log]
    and [math.sqrt] go through CPython's wrapper [math_1], which turns an
    infinite or NaN result of a finite argument into [OverflowError] or
    [ValueError].  Every operation that can raise is bound in the order in
    which Python evaluates it.  The comparisons are IEEE comparisons: every
    one of them is false when an operand is NaN. *)

Module F64.

Import PrimFloat.
Local Open Scope float_scope.

(** The exceptions that float arithmetic and the [math] module add to the
    [ValueError]s the code raises itself. *)
Inductive exn : Type :=
| ValueError (msg : string)
| OverflowError
| ZeroDivisionError.

Inductive result (A : Type) : Type :=
| Ok (a : A)
| Raise (e : exn).
Arguments Ok {A} a.
Arguments Raise {A} e.

Definition bind {A B : Type} (m : result A) (k : A -> result B) : result B :=
  match m with
  | Ok a => k a
  | Raise e => Raise e
  end.

Declare Scope f64_scope.
Delimit Scope f64_scope with f64.
Notation "x <- m ;; k" := (bind m (fun x => k))
  (at level 61, m at next level, right associativity) : f64_scope.
Notation "' pat <- m ;; k" := (bind m (fun x => match x with pat => k end))
  (at level 61, pat pattern, m at next level, right associativity) : f64_scope.

(** [a / b] on floats: [ZeroDivisionError] when [b == 0.0]. *)
Definition truediv (a b : float) : result float :=
  if b =? 0 then Raise ZeroDivisionError else Ok (a / b).

(** CPython's wrapper [math_1] around a C library function: a NaN result
    of a non-NaN argument is a [ValueError], an infinite result of a
    finite argument an [OverflowError] (or a [ValueError] for a function
    that cannot overflow).  Its last branch, on [errno] with a finite
    result, is left out: it raises only for a finite result of magnitude
    1.5 or more that the library reports as out of range, which [exp],
    [log] and [sqrt] do not produce. *)
Definition math_1 (func : float -> float) (can_overflow : bool) (x : float)
  : result float :=
  let r := func x in
  if (is_nan r && negb (is_nan x))%bool then
    Raise (ValueError "math domain error")
  else if (is_infinity r && is_finite x)%bool then
    if can_overflow then Raise OverflowError
    else Raise (ValueError "math domain error")
  else Ok r.

(** [max(a, b)] keeps [a] unless [b > a]; [min(a, b)] keeps [a] unless
    [b < a]; both comparisons are false when an argument is NaN. *)
Definition py_max (a b : float) : float := if a <? b then b else a.
Definition py_min (a b : float) : float := if b <? a then b else a.

(** [math.pi] *)
Definition pi : float := 3.141592653589793.

Record Greeks : Type := mkGreeks {
  delta : float;
  gamma : float;
  vega : float;
  theta : float;
  rho : float
}.

Inductive newton_exit : Type :=
| Return (v : float)
| Break
| Exhausted.

Section Libm.

(** The C library's [exp], [log] and [erf]. *)
Variables libm_exp libm_log libm_erf : float -> float.

(** CPython's [m_log], which [math.log] passes to [math_1]. *)
Definition m_log (x : float) : float :=
  if is_finite x then
    if 0 <? x then libm_log x
    else if x =? 0 then neg_infinity
    else nan
  else if is_nan x then x
  else if 0 <? x then x
  else nan.

Definition math_log : float -> result float := math_1 m_log false.
Definition math_exp : float -> result float := math_1 libm_exp true.
Definition math_sqrt : float -> result float := math_1 sqrt false.
(** [math.erf] goes through [math_1a], which raises only on [errno] with a
    result of magnitude 1.5 or more: never, for [erf]. *)
Definition math_erf (x : float) : float := libm_erf x.

Definition _phi (x : float) : result float :=
  (e <- math_exp (-0.5 * x * x) ;;
   s <- math_sqrt (2 * pi) ;;
   truediv e s)%f64.

Definition _Phi (x : float) : result float :=
  (s <- math_sqrt 2.0 ;;
   a <- truediv x s ;;
   Ok (0.5 * (1.0 + math_erf a)))%f64.

Definition _d1_d2 (S K T r sigma q : float) : result (float * float) :=
  if any (fun v => v <=? 0) [S; K; T; sigma] then
    Raise (ValueError gate_msg)
  else
    (sq <- math_sqrt T ;;
     let vsqrtT := sigma * sq in
     sk <- truediv S K ;;
     l <- math_log sk ;;
     d1 <- truediv (l + (r - q + 0.5 * sigma * sigma) * T) vsqrtT ;;
     let d2 := d1 - vsqrtT in
     Ok (d1, d2))%f64.

Definition bs_price (S K T r sigma q : float) (option : string) : result float :=
  ('(d1, d2) <- _d1_d2 S K T r sigma q ;;
   disc_r <- math_exp (- r * T) ;;
   disc_q <- math_exp (- q * T) ;;
   if (option =? "call")%string then
     p1 <- _Phi d1 ;;
     p2 <- _Phi d2 ;;
     Ok (S * disc_q * p1 - K * disc_r * p2)
   else if (option =? "put")%string then
     p2 <- _Phi (- d2) ;;
     p1 <- _Phi (- d1) ;;
     Ok (K * disc_r * p2 - S * disc_q * p1)
   else
     Raise (ValueError option_msg))%f64.

Definition bs_greeks (S K T r sigma q : float) (option : string) : result Greeks :=
  ('(d1, d2) <- _d1_d2 S K T r sigma q ;;
   disc_r <- math_exp (- r * T) ;;
   disc_q <- math_exp (- q * T) ;;
   pdf <- _phi d1 ;;
   '(delta, theta, rho) <-
     (if (option =? "call")%string then
        p1 <- _Phi d1 ;;
        let delta := disc_q * p1 in
        sq <- math_sqrt T ;;
        decay <- truediv (- S * disc_q * pdf * sigma) (2 * sq) ;;
        p2 <- _Phi d2 ;;
        p1' <- _Phi d1 ;;
        let theta := decay - r * K * disc_r * p2 + q * S * disc_q * p1' in
        p2' <- _Phi d2 ;;
        Ok (delta, theta, K * T * disc_r * p2')
      else
        p1 <- _Phi d1 ;;
        let delta := disc_q * (p1 - 1.0) in
        sq <- math_sqrt T ;;
        decay <- truediv (- S * disc_q * pdf * sigma) (2 * sq) ;;
        p2 <- _Phi (- d2) ;;
        p1' <- _Phi (- d1) ;;
        let theta := decay + r * K * disc_r * p2 - q * S * disc_q * p1' in
        p2' <- _Phi (- d2) ;;
        Ok (delta, theta, - K * T * disc_r * p2')) ;;
   sq <- math_sqrt T ;;
   gamma <- truediv (disc_q * pdf) (S * sigma * sq) ;;
   sq' <- math_sqrt T ;;
   let vega := S * disc_q * pdf * sq' in
   Ok (mkGreeks delta gamma vega theta rho))%f64.

Section Solver.

Variables target_price S K T r q : float.
Variable option : string.

(** [for _ in range(n)] of the Newton phase, entered with guess [sigma]. *)
Fixpoint newton_loop (tol : float) (n : nat) (sigma : float) : result newton_exit :=
  match n with
  | O => Ok Exhausted
  | Datatypes.S n' =>
      (price <- bs_price S K T r sigma q option ;;
       let diff := price - target_price in
       if abs diff <? tol then
         Ok (Return (py_max 1e-12 sigma))
       else
         g <- bs_greeks S K T r sigma q option ;;
         let vega := vega g in
         if vega <? 1e-12 then
           Ok Break
         else
           step <- truediv diff vega ;;
           newton_loop tol n' (py_min 5.0 (py_max 1e-6 (sigma - step))))%f64
  end.

(** [for _ in range(n)] of the bisection phase on the bracket [lo, hi],
    followed by the final [return 0.5 * (lo + hi)]. *)
Fixpoint bisection_loop (tol : float) (n : nat) (lo hi : float) : result float :=
  match n with
  | O => Ok (0.5 * (lo + hi))
  | Datatypes.S n' =>
      let mid := 0.5 * (lo + hi) in
      (pmid <- bs_price S K T r mid q option ;;
       if abs (pmid - target_price) <? tol then
         Ok mid
       else if target_price <? pmid then
         bisection_loop tol n' lo mid
       else
         bisection_loop tol n' mid hi)%f64
  end.

Definition implied_vol (seed tol : float) (max_iter : Z) : result float :=
  let sigma := py_max 1e-6 seed in
  (ex <- newton_loop tol (Z.to_nat max_iter) sigma ;;
   match ex with
   | Return v => Ok v
   | Break | Exhausted => bisection_loop tol 200 1e-6 5.0
   end)%f64.

End Solver.

(** What C99 (Annex F, section F.9) fixes of the three library functions at
    the special values: nothing is assumed of them anywhere else. *)
Definition annex_f : Prop :=
  libm_exp 0 = 1 /\ libm_exp (-0) = 1 /\ libm_exp nan = nan
  /\ libm_log 1 = 0
  /\ libm_erf infinity = 1 /\ libm_erf neg_infinity = -1 /\ libm_erf nan = nan.

End Libm.

(** A library function overridden at the special values by what Annex F
    prescribes there. *)
Definition exp_special (f : float -> float) (x : float) : float :=
  if Leibniz.eqb x 0 then 1
  else if Leibniz.eqb x (-0) then 1
  else if Leibniz.eqb x nan then nan
  else f x.

Definition log_special (f : float -> float) (x : float) : float :=
  if Leibniz.eqb x 1 then 0 else f x.

Definition erf_special (f : float -> float) (x : float) : float :=
  if Leibniz.eqb x infinity then 1
  else if Leibniz.eqb x neg_infinity then -1
  else if Leibniz.eqb x nan then nan
  else f x.

(** One library that meets [annex_f]; its values away from the special
    points are arbitrary. *)
Definition sample_exp : float -> float := exp_special (fun x => x).
Definition sample_log : float -> float := log_special (fun x => x).
Definition sample_erf : float -> float := erf_special (fun x => x).

End F64.

(** * Properties *)

(** ** The error function and the normal distribution *)

Section ErrorFunction.

Lemma sqrt_PI_pos : 0 < sqrt PI.
Proof. apply sqrt_lt_R0, PI_RGT_0. Qed.

Lemma gauss_even (t : R) : gauss (- t) = gauss t.
Proof. unfold gauss. f_equal. ring. Qed.

Lemma erf_0 : erf 0 = 0.
Proof. unfold erf. rewrite RiemannInt_P9. ring. Qed.

(** The integral from [0] to [y] is a difference of two values of a
    primitive built on any interval that holds [0] and [y]. *)
Lemma gauss_integral_primitive (a b : R) (h : a <= b)
      (C0 : forall x : R, a <= x <= b -> continuity_pt gauss x) (y : R) :
  a <= 0 <= b -> a <= y <= b ->
  RiemannInt (gauss_integrable 0 y)
  = primitive h (FTC_P1 h C0) y - primitive h (FTC_P1 h C0) 0.
Proof.
  intros [Ha0 H0b] [Hay Hyb].
  unfold primitive.
  destruct (Rle_dec a y) as [ry | n]; [ | contradiction].
  destruct (Rle_dec y b) as [ry' | n]; [ | contradiction].
  destruct (Rle_dec a 0) as [r0 | n]; [ | contradiction].
  destruct (Rle_dec 0 b) as [r0' | n]; [ | contradiction].
  match goal with
  | |- _ = RiemannInt ?py - RiemannInt ?p0 =>
      rewrite <- (RiemannInt_P26 p0 (gauss_integrable 0 y) py)
  end.
  ring.
Qed.

(** Fundamental theorem of calculus for [erf]. *)
Lemma derivable_pt_lim_erf (x : R) :
  derivable_pt_lim erf x (2 / sqrt PI * gauss x).
Proof.
  set (a := - (Rabs x + 1)). set (b := Rabs x + 1).
  assert (Hx : a < x < b).
  { unfold a, b. pose proof (Rle_abs x). pose proof (Rle_abs (- x)) as Hn.
    rewrite Rabs_Ropp in Hn. lra. }
  assert (H0 : a <= 0 <= b).
  { unfold a, b. pose proof (Rabs_pos x). lra. }
  assert (h : a <= b) by lra.
  assert (C0 : forall y : R, a <= y <= b -> continuity_pt gauss y)
    by (intros; apply gauss_continuous).
  apply (derivable_pt_lim_locally_ext
           (fun y => 2 / sqrt PI
                     * (primitive h (FTC_P1 h C0) y - primitive h (FTC_P1 h C0) 0))
           erf x a b); [exact Hx | | ].
  - intros z Hz. unfold erf.
    rewrite (gauss_integral_primitive a b h C0 z); [reflexivity | exact H0 | lra].
  - apply (derivable_pt_lim_scal
             (fun y => primitive h (FTC_P1 h C0) y - primitive h (FTC_P1 h C0) 0)).
    replace (gauss x) with (gauss x - 0) by ring.
    apply (derivable_pt_lim_minus (primitive h (FTC_P1 h C0))
             (fct_cte (primitive h (FTC_P1 h C0) 0))).
    + apply RiemannInt_P27. exact Hx.
    + apply derivable_pt_lim_const.
Qed.

(** A function whose derivative vanishes everywhere is constant. *)
Lemma zero_derivative_constant (f : R -> R) :
  (forall x, derivable_pt_lim f x 0) -> forall x y, f x = f y.
Proof.
  intros Hf.
  assert (Hlt : forall x y, x < y -> f x = f y).
  { intros x y Hxy.
    destruct (MVT_cor2 f (fun _ => 0) x y Hxy) as [c [Hc _]].
    - intros; apply Hf.
    - lra. }
  intros x y. destruct (Rtotal_order x y) as [H | [H | H]].
  - apply Hlt, H.
  - now subst.
  - symmetry. apply Hlt, H.
Qed.

(** [erf] is odd. *)
Lemma erf_odd (x : R) : erf (- x) = - erf x.
Proof.
  assert (Hc : forall y, derivable_pt_lim (fun t => erf t + erf (- t)) y 0).
  { intro y.
    replace 0 with (2 / sqrt PI * gauss y + 2 / sqrt PI * gauss (- y) * (-1))
      by (rewrite gauss_even; ring).
    apply (derivable_pt_lim_plus erf (fun t => erf (- t))).
    - apply derivable_pt_lim_erf.
    - apply (derivable_pt_lim_comp (fun t => - t) erf).
      + replace (-1) with (- 1) by ring.
        apply (derivable_pt_lim_opp id), derivable_pt_lim_id.
      + apply derivable_pt_lim_erf. }
  pose proof (zero_derivative_constant _ Hc x 0) as H.
  cbv beta in H. rewrite Ropp_0, erf_0 in H. lra.
Qed.

End ErrorFunction.

Section NormalDistribution.

Lemma sqrt2_pos : 0 < sqrt 2.
Proof. apply sqrt_lt_R0. lra. Qed.

Lemma sqrt2_sqr : sqrt 2 * sqrt 2 = 2.
Proof. apply sqrt_sqrt. lra. Qed.

Lemma _phi_pos (x : R) : 0 < _phi x.
Proof.
  unfold _phi. apply Rdiv_lt_0_compat; [apply exp_pos | ].
  apply sqrt_lt_R0. pose proof PI_RGT_0. lra.
Qed.

(** [Phi(-x) = 1 - Phi(x)]. *)
Lemma _Phi_opp (x : R) : _Phi (- x) = 1 - _Phi x.
Proof.
  unfold _Phi.
  replace (- x / sqrt 2.0) with (- (x / sqrt 2.0)) by (unfold Rdiv; ring).
  rewrite erf_odd. lra.
Qed.

(** The density [_phi] is the derivative of the distribution [_Phi]. *)
Lemma derivable_pt_lim_Phi (x : R) : derivable_pt_lim _Phi x (_phi x).
Proof.
  pose proof sqrt2_pos as H2. pose proof sqrt_PI_pos as HP.
  pose proof sqrt2_sqr as H22.
  replace 2.0 with 2 in * by lra.
  assert (Hval : _phi x = 0.5 * (0 + 2 / sqrt PI * gauss (x / sqrt 2) * (1 / sqrt 2))).
  { unfold _phi, gauss.
    replace (-0.5 * x * x) with (- (x / sqrt 2 * (x / sqrt 2))).
    2:{ replace (x / sqrt 2 * (x / sqrt 2)) with (x * x / (sqrt 2 * sqrt 2))
          by (field; lra).
        rewrite H22. lra. }
    rewrite sqrt_mult by (pose proof PI_RGT_0; lra).
    replace 0.5 with (/ 2) by lra.
    field. lra. }
  rewrite Hval.
  apply (derivable_pt_lim_ext (fun y => 0.5 * (1 + erf (y / sqrt 2)))).
  { intro z. unfold _Phi. replace 2.0 with 2 by lra. replace 1.0 with 1 by lra.
    reflexivity. }
  apply (derivable_pt_lim_scal (fun y => 1 + erf (y / sqrt 2))).
  apply (derivable_pt_lim_plus (fct_cte 1) (fun y => erf (y / sqrt 2))).
  - apply derivable_pt_lim_const.
  - apply (derivable_pt_lim_comp (fun y => y / sqrt 2) erf).
    + replace (1 / sqrt 2) with (1 * / sqrt 2) by (unfold Rdiv; ring).
      apply (derivable_pt_lim_scal_right id), derivable_pt_lim_id.
    + apply derivable_pt_lim_erf.
Qed.

End NormalDistribution.

(** ** The validation gate *)

Section Gate.

Lemma Rleb_false (x y : R) : Rleb x y = false <-> y < x.
Proof. unfold Rleb. destruct (Rle_dec x y); split; intros; try easy; lra. Qed.

Lemma gate_closed (S K T sigma : R) :
  ~ (0 < S /\ 0 < K /\ 0 < T /\ 0 < sigma) ->
  any (fun v => Rleb v 0) [S; K; T; sigma] = true.
Proof.
  intros H. unfold any. simpl.
  destruct (Rleb S 0) eqn:HS; [reflexivity | ].
  destruct (Rleb K 0) eqn:HK; [reflexivity | ].
  destruct (Rleb T 0) eqn:HT; [reflexivity | ].
  destruct (Rleb sigma 0) eqn:Hs; [reflexivity | ].
  apply Rleb_false in HS, HK, HT, Hs. tauto.
Qed.

Lemma gate_open (S K T sigma : R) :
  0 < S -> 0 < K -> 0 < T -> 0 < sigma ->
  any (fun v => Rleb v 0) [S; K; T; sigma] = false.
Proof.
  intros HS HK HT Hs. unfold any. simpl.
  apply Rleb_false in HS, HK, HT, Hs. now rewrite HS, HK, HT, Hs.
Qed.

Lemma _d1_d2_invalid (S K T r sigma q : R) :
  ~ (0 < S /\ 0 < K /\ 0 < T /\ 0 < sigma) ->
  _d1_d2 S K T r sigma q = Raise (ValueError gate_msg).
Proof. intros H. unfold _d1_d2. now rewrite gate_closed. Qed.

Lemma _d1_d2_valid (S K T r sigma q : R) :
  0 < S -> 0 < K -> 0 < T -> 0 < sigma ->
  _d1_d2 S K T r sigma q
  = Ok (Spec.d1 S K T r sigma q, Spec.d2 S K T r sigma q).
Proof.
  intros HS HK HT Hs. unfold _d1_d2. rewrite gate_open by assumption.
  unfold Spec.d2, Spec.d1.
  replace (r - q + 0.5 * sigma * sigma) with (r - q + sigma ^ 2 / 2) by lra.
  reflexivity.
Qed.

Lemma bs_price_valid (S K T r sigma q : R) (o : Spec.OptionType) :
  0 < S -> 0 < K -> 0 < T -> 0 < sigma ->
  bs_price S K T r sigma q (Spec.option_string o)
  = Ok (Spec.price S K T r sigma q o).
Proof.
  intros HS HK HT Hs. unfold bs_price. rewrite _d1_d2_valid by assumption.
  unfold Spec.price, Spec.discR, Spec.discQ.
  replace (- r * T) with (- (r * T)) by ring.
  replace (- q * T) with (- (q * T)) by ring.
  destruct o; reflexivity.
Qed.

Lemma bs_greeks_vega (S K T r sigma q : R) (o : Spec.OptionType) :
  0 < S -> 0 < K -> 0 < T -> 0 < sigma ->
  exists g, bs_greeks S K T r sigma q (Spec.option_string o) = Ok g
            /\ vega g = Spec.vega S K T r sigma q.
Proof.
  intros HS HK HT Hs. unfold bs_greeks. rewrite _d1_d2_valid by assumption.
  unfold Spec.vega, Spec.discQ.
  replace (- q * T) with (- (q * T)) by ring.
  destruct o; simpl; eexists; split; reflexivity.
Qed.

End Gate.

(** [bs_price] returns a price for the option strings "call" and "put"
    only. *)
Lemma bs_price_checks_option (S K T r sigma q : R) (option : string) (p : R) :
  bs_price S K T r sigma q option = Ok p ->
  option = "call"%string \/ option = "put"%string.
Proof.
  unfold bs_price.
  destruct (_d1_d2 S K T r sigma q) as [[d1 d2] | e]; simpl; [ | discriminate].
  destruct (option =? "call")%string eqn:Hc.
  { intros _. left. now apply String.eqb_eq. }
  destruct (option =? "put")%string eqn:Hp.
  { intros _. right. now apply String.eqb_eq. }
  discriminate.
Qed.

(** ** The closed form as a function of the volatility *)

Section ClosedForm.

Variables S K T r q : R.
Hypothesis S_pos : 0 < S.
Hypothesis K_pos : 0 < K.
Hypothesis T_pos : 0 < T.

Let A : R := (ln (S / K) + (r - q) * T) / sqrt T.
Let B : R := sqrt T / 2.

Lemma sqrtT_pos : 0 < sqrt T.
Proof. apply sqrt_lt_R0, T_pos. Qed.

Lemma sqrtT_sqr : sqrt T * sqrt T = T.
Proof. apply sqrt_sqrt. lra. Qed.

Lemma d1_split (sigma : R) :
  sigma <> 0 -> Spec.d1 S K T r sigma q = A / sigma + B * sigma.
Proof.
  intros Hs. pose proof sqrtT_pos as Hp. pose proof sqrtT_sqr as Hq.
  unfold Spec.d1, A, B. symmetry in Hq.
  set (s := sqrt T) in *. clearbody s. rewrite Hq. field. split; lra.
Qed.

Lemma derivable_pt_lim_d1 (sigma : R) :
  0 < sigma ->
  derivable_pt_lim (fun s => Spec.d1 S K T r s q) sigma (B - A / (sigma * sigma)).
Proof.
  intros Hs.
  apply (derivable_pt_lim_locally_ext (fun s => A / s + B * s) _ sigma
           (sigma / 2) (sigma + 1)); [lra | | ].
  - intros z Hz. symmetry. apply d1_split. lra.
  - replace (B - A / (sigma * sigma))
      with ((0 * id sigma - 1 * fct_cte A sigma) / Rsqr (id sigma) + B * 1)
      by (unfold id, fct_cte, Rsqr; field; lra).
    apply (derivable_pt_lim_plus (fct_cte A / id)%F (mult_real_fct B id)).
    + apply derivable_pt_lim_div;
        [apply derivable_pt_lim_const | apply derivable_pt_lim_id | unfold id; lra].
    + apply derivable_pt_lim_scal, derivable_pt_lim_id.
Qed.

Lemma derivable_pt_lim_d2 (sigma : R) :
  0 < sigma ->
  derivable_pt_lim (fun s => Spec.d2 S K T r s q) sigma
    (B - A / (sigma * sigma) - sqrt T).
Proof.
  intros Hs. unfold Spec.d2.
  apply (derivable_pt_lim_minus (fun s => Spec.d1 S K T r s q)
           (fun s => s * sqrt T)).
  - apply derivable_pt_lim_d1, Hs.
  - pose proof (derivable_pt_lim_scal_right id sigma 1 (sqrt T)
                  (derivable_pt_lim_id sigma)) as H.
    rewrite Rmult_1_l in H. exact H.
Qed.

(** [S discQ phi(d1) = K discR phi(d2)]. *)
Lemma density_balance (sigma : R) :
  0 < sigma ->
  S * Spec.discQ q T * _phi (Spec.d1 S K T r sigma q)
  = K * Spec.discR r T * _phi (Spec.d2 S K T r sigma q).
Proof.
  intros Hs. pose proof sqrtT_pos as Hp. pose proof sqrtT_sqr as Hq.
  assert (HSK : 0 < S / K) by (apply Rdiv_lt_0_compat; assumption).
  assert (HS : S = K * exp (ln (S / K))).
  { rewrite exp_ln by exact HSK. field. lra. }
  unfold Spec.d2. rewrite d1_split by lra.
  unfold _phi, Spec.discQ, Spec.discR.
  set (d := A / sigma + B * sigma).
  rewrite HS at 1.
  replace (K * exp (ln (S / K)) * exp (- (q * T)) * (exp (-0.5 * d * d) / sqrt (2 * PI)))
    with (K * (exp (ln (S / K)) * exp (- (q * T)) * exp (-0.5 * d * d)) / sqrt (2 * PI))
    by (unfold Rdiv; ring).
  replace (K * exp (- (r * T))
           * (exp (-0.5 * (d - sigma * sqrt T) * (d - sigma * sqrt T)) / sqrt (2 * PI)))
    with (K * (exp (- (r * T))
               * exp (-0.5 * (d - sigma * sqrt T) * (d - sigma * sqrt T)))
          / sqrt (2 * PI))
    by (unfold Rdiv; ring).
  rewrite <- !exp_plus. do 3 f_equal.
  assert (Hd : d * (sigma * sqrt T) = ln (S / K) + (r - q) * T + sigma * sigma * T / 2).
  { unfold d, A, B. symmetry in Hq. clear HS.
    set (s := sqrt T) in *. clearbody s. set (L := ln (S / K)). clearbody L.
    rewrite Hq. field. split; lra. }
  assert (Hexp : (d - sigma * sqrt T) * (d - sigma * sqrt T)
                 = d * d - 2 * (d * (sigma * sqrt T)) + sigma * sigma * T).
  { clearbody d. clear HS. set (s := sqrt T) in *. clearbody s.
    rewrite <- Hq. ring. }
  replace (-0.5 * (d - sigma * sqrt T) * (d - sigma * sqrt T))
    with (-0.5 * ((d - sigma * sqrt T) * (d - sigma * sqrt T))) by lra.
  rewrite Hexp, Hd. lra.
Qed.

(** The derivative of the call price in the volatility is the vega. *)
Lemma derivable_pt_lim_call (sigma : R) :
  0 < sigma ->
  derivable_pt_lim (fun s => Spec.price S K T r s q Spec.Call) sigma
    (Spec.vega S K T r sigma q).
Proof.
  intros Hs. unfold Spec.price.
  set (d1' := B - A / (sigma * sigma)).
  replace (Spec.vega S K T r sigma q)
    with (S * Spec.discQ q T * (_phi (Spec.d1 S K T r sigma q) * d1')
          - K * Spec.discR r T * (_phi (Spec.d2 S K T r sigma q) * (d1' - sqrt T))).
  2:{ unfold Spec.vega.
      pose proof (density_balance sigma Hs) as Hb.
      set (x := S * Spec.discQ q T) in *. set (y := K * Spec.discR r T) in *.
      set (p1 := _phi (Spec.d1 S K T r sigma q)) in *.
      set (p2 := _phi (Spec.d2 S K T r sigma q)) in *.
      replace (x * (p1 * d1') - y * (p2 * (d1' - sqrt T)))
        with ((x * p1) * d1' - (y * p2) * (d1' - sqrt T)) by ring.
      rewrite <- Hb. ring. }
  apply (derivable_pt_lim_minus
           (fun s => S * Spec.discQ q T * _Phi (Spec.d1 S K T r s q))
           (fun s => K * Spec.discR r T * _Phi (Spec.d2 S K T r s q))).
  - apply (derivable_pt_lim_scal (fun s => _Phi (Spec.d1 S K T r s q))).
    apply (derivable_pt_lim_comp (fun s => Spec.d1 S K T r s q) _Phi).
    + apply derivable_pt_lim_d1, Hs.
    + apply derivable_pt_lim_Phi.
  - apply (derivable_pt_lim_scal (fun s => _Phi (Spec.d2 S K T r s q))).
    apply (derivable_pt_lim_comp (fun s => Spec.d2 S K T r s q) _Phi).
    + apply derivable_pt_lim_d2, Hs.
    + apply derivable_pt_lim_Phi.
Qed.

Lemma vega_pos (sigma : R) : 0 < Spec.vega S K T r sigma q.
Proof.
  unfold Spec.vega, Spec.discQ.
  pose proof (_phi_pos (Spec.d1 S K T r sigma q)) as Hp.
  pose proof (exp_pos (- (q * T))) as He. pose proof sqrtT_pos as Ht.
  apply Rmult_lt_0_compat; [ | exact Ht].
  apply Rmult_lt_0_compat; [ | exact Hp].
  apply Rmult_lt_0_compat; assumption.
Qed.

(** Put-call parity of the closed form. *)
Lemma closed_form_parity (sigma : R) :
  Spec.price S K T r sigma q Spec.Call - Spec.price S K T r sigma q Spec.Put
  = S * exp (- (q * T)) - K * exp (- (r * T)).
Proof.
  unfold Spec.price, Spec.discQ, Spec.discR. rewrite !_Phi_opp. ring.
Qed.

Lemma call_increasing (s1 s2 : R) :
  0 < s1 -> s1 < s2 ->
  Spec.price S K T r s1 q Spec.Call < Spec.price S K T r s2 q Spec.Call.
Proof.
  intros H1 H12.
  destruct (MVT_cor2 (fun s => Spec.price S K T r s q Spec.Call)
              (fun s => Spec.vega S K T r s q) s1 s2 H12) as [c [Hc Hin]].
  - intros c Hc. apply derivable_pt_lim_call. lra.
  - pose proof (vega_pos c) as Hv.
    assert (0 < Spec.vega S K T r c q * (s2 - s1))
      by (apply Rmult_lt_0_compat; lra).
    lra.
Qed.

Lemma price_increasing (o : Spec.OptionType) (s1 s2 : R) :
  0 < s1 -> s1 < s2 ->
  Spec.price S K T r s1 q o < Spec.price S K T r s2 q o.
Proof.
  intros H1 H12. pose proof (call_increasing s1 s2 H1 H12) as Hc.
  destruct o; [exact Hc | ].
  pose proof (closed_form_parity s1). pose proof (closed_form_parity s2). lra.
Qed.

End ClosedForm.

(** ** The call log *)

Section CallLog.

Context {A B : Type}.

Lemma outcome_bind_ok (m : M A) (k : A -> M B) (a : A) :
  outcome m = Ok a -> outcome (bind m k) = outcome (k a).
Proof.
  destruct m as [res log]. simpl. intros ->. unfold bind.
  now destruct (k a).
Qed.

Lemma outcome_bind_raise (m : M A) (k : A -> M B) (e : exn) :
  outcome m = Raise e -> outcome (bind m k) = Raise e.
Proof. destruct m as [res log]. simpl. now intros ->. Qed.

Lemma calls_bind_ok (m : M A) (k : A -> M B) (a : A) :
  outcome m = Ok a -> calls (bind m k) = calls m ++ calls (k a).
Proof.
  destruct m as [res log]. simpl. intros ->. unfold bind.
  now destruct (k a).
Qed.

Lemma calls_bind_raise (m : M A) (k : A -> M B) (e : exn) :
  outcome m = Raise e -> calls (bind m k) = calls m.
Proof. destruct m as [res log]. simpl. now intros ->. Qed.

Lemma price_evaluations_bind (m : M A) (k : A -> M B) :
  (price_evaluations (bind m k) = price_evaluations m
   \/ exists a, outcome m = Ok a
                /\ price_evaluations (bind m k)
                   = price_evaluations m + price_evaluations (k a))%nat.
Proof.
  destruct m as [[a | e] log].
  - right. exists a. split; [reflexivity | ].
    unfold price_evaluations.
    rewrite (calls_bind_ok (Ok a, log) k a eq_refl).
    now rewrite filter_app, length_app.
  - left. reflexivity.
Qed.

Lemma greeks_evaluations_bind (m : M A) (k : A -> M B) :
  (greeks_evaluations (bind m k) = greeks_evaluations m
   \/ exists a, outcome m = Ok a
                /\ greeks_evaluations (bind m k)
                   = greeks_evaluations m + greeks_evaluations (k a))%nat.
Proof.
  destruct m as [[a | e] log].
  - right. exists a. split; [reflexivity | ].
    unfold greeks_evaluations.
    rewrite (calls_bind_ok (Ok a, log) k a eq_refl).
    now rewrite filter_app, length_app.
  - left. reflexivity.
Qed.

End CallLog.

(** Resolve the first call of a computation, given the equation [Hc] of
    its result. *)
Ltac bind_call_in H Hc :=
  match type of H with
  | context [bind ?m ?k] =>
      first [ rewrite (outcome_bind_ok m k _ Hc) in H
            | rewrite (outcome_bind_raise m k _ Hc) in H ]
  end.

Ltac bind_call Hc :=
  match goal with
  | |- context [bind ?m ?k] =>
      first [ rewrite (outcome_bind_ok m k _ Hc)
            | rewrite (outcome_bind_raise m k _ Hc) ]
  end.

(** ** Python's [max] and [min] *)

Section MaxMin.

Lemma py_max_Rmax (a b : R) : py_max a b = Rmax a b.
Proof.
  unfold py_max, Rmax. destruct (Rgt_dec b a), (Rle_dec a b); lra.
Qed.

Lemma py_clamp (x : R) : py_min 5.0 (py_max 1e-6 x) = Spec.clamp x 1e-6 5.0.
Proof.
  unfold py_min, py_max, Spec.clamp.
  destruct (Rgt_dec x 1e-6), (Rlt_dec x 1e-6);
    repeat match goal with |- context [Rlt_dec ?a ?b] => destruct (Rlt_dec a b) end;
    lra.
Qed.

Lemma clamp_range (x : R) : 1e-6 <= Spec.clamp x 1e-6 5.0 <= 5.
Proof.
  unfold Spec.clamp.
  destruct (Rlt_dec x 1e-6); [lra | ]. destruct (Rlt_dec 5.0 x); lra.
Qed.

Lemma py_max_floor (x : R) : 1e-6 <= py_max 1e-6 x.
Proof. unfold py_max. destruct (Rgt_dec x 1e-6); lra. Qed.

End MaxMin.

(** ** The two loops of the solver, for arbitrary inputs *)

Section Loops.

Variables target S K T r q : R.
Variable option : string.
Variable tol : R.

Let newton := newton_loop target S K T r q option tol.
Let bisection := bisection_loop target S K T r q option tol.

Lemma newton_loop_step (n : nat) (sigma : R) :
  newton (Datatypes.S n) sigma
  = bind (price_call S K T r q option sigma) (fun price =>
      if Rlt_dec (Rabs (price - target)) tol then
        ret (Return (py_max 1e-12 sigma))
      else
        bind (greeks_call S K T r q option sigma) (fun g =>
          if Rlt_dec (vega g) 1e-12 then ret Break
          else newton n (py_min 5.0 (py_max 1e-6 (sigma - (price - target) / vega g))))).
Proof. reflexivity. Qed.

Lemma bisection_loop_step (n : nat) (lo hi : R) :
  bisection (Datatypes.S n) lo hi
  = bind (price_call S K T r q option (0.5 * (lo + hi))) (fun pmid =>
      if Rlt_dec (Rabs (pmid - target)) tol then ret (0.5 * (lo + hi))
      else if Rgt_dec pmid target then bisection n lo (0.5 * (lo + hi))
      else bisection n (0.5 * (lo + hi)) hi).
Proof. reflexivity. Qed.

(** Each Newton step evaluates the price once and the Greeks at most once. *)
Lemma newton_price_evaluations (n : nat) (sigma : R) :
  (price_evaluations (newton n sigma) <= n)%nat.
Proof.
  revert sigma. induction n as [ | n IH]; intros sigma; [exact (le_n 0) | ].
  rewrite newton_loop_step.
  destruct (price_evaluations_bind (price_call S K T r q option sigma)
              (fun price =>
                 if Rlt_dec (Rabs (price - target)) tol then
                   ret (Return (py_max 1e-12 sigma))
                 else
                   bind (greeks_call S K T r q option sigma) (fun g =>
                     if Rlt_dec (vega g) 1e-12 then ret Break
                     else newton n (py_min 5.0
                            (py_max 1e-6 (sigma - (price - target) / vega g))))))
    as [-> | [p [_ ->]]];
    change (price_evaluations (price_call S K T r q option sigma)) with 1%nat;
    [lia | ].
  destruct (Rlt_dec (Rabs (p - target)) tol); [cbn; lia | ].
  match goal with
  | |- context [bind ?m ?k] =>
      destruct (price_evaluations_bind m k) as [-> | [g [_ ->]]]
  end; [cbn; lia | ].
  change (price_evaluations (greeks_call S K T r q option sigma)) with 0%nat.
  destruct (Rlt_dec (vega g) 1e-12); [cbn; lia | ].
  specialize (IH (py_min 5.0 (py_max 1e-6 (sigma - (p - target) / vega g)))).
  lia.
Qed.

Lemma newton_greeks_evaluations (n : nat) (sigma : R) :
  (greeks_evaluations (newton n sigma) <= n)%nat.
Proof.
  revert sigma. induction n as [ | n IH]; intros sigma; [exact (le_n 0) | ].
  rewrite newton_loop_step.
  match goal with
  | |- context [bind ?m ?k] =>
      destruct (greeks_evaluations_bind m k) as [-> | [p [_ ->]]]
  end; [cbn; lia | ].
  change (greeks_evaluations (price_call S K T r q option sigma)) with 0%nat.
  destruct (Rlt_dec (Rabs (p - target)) tol); [cbn; lia | ].
  match goal with
  | |- context [bind ?m ?k] =>
      destruct (greeks_evaluations_bind m k) as [-> | [g [_ ->]]]
  end; [cbn; lia | ].
  change (greeks_evaluations (greeks_call S K T r q option sigma)) with 1%nat.
  destruct (Rlt_dec (vega g) 1e-12); [cbn; lia | ].
  specialize (IH (py_min 5.0 (py_max 1e-6 (sigma - (p - target) / vega g)))).
  lia.
Qed.

Lemma bisection_price_evaluations (n : nat) (lo hi : R) :
  (price_evaluations (bisection n lo hi) <= n)%nat.
Proof.
  revert lo hi. induction n as [ | n IH]; intros lo hi; [exact (le_n 0) | ].
  rewrite bisection_loop_step.
  match goal with
  | |- context [bind ?m ?k] =>
      destruct (price_evaluations_bind m k) as [-> | [p [_ ->]]]
  end; [cbn; lia | ].
  change (price_evaluations (price_call S K T r q option (0.5 * (lo + hi))))
    with 1%nat.
  destruct (Rlt_dec (Rabs (p - target)) tol); [cbn; lia | ].
  destruct (Rgt_dec p target).
  - specialize (IH lo (0.5 * (lo + hi))). lia.
  - specialize (IH (0.5 * (lo + hi)) hi). lia.
Qed.

Lemma bisection_greeks_evaluations (n : nat) (lo hi : R) :
  greeks_evaluations (bisection n lo hi) = 0%nat.
Proof.
  revert lo hi. induction n as [ | n IH]; intros lo hi; [reflexivity | ].
  rewrite bisection_loop_step.
  match goal with
  | |- context [bind ?m ?k] =>
      destruct (greeks_evaluations_bind m k) as [-> | [p [_ ->]]]
  end; [reflexivity | ].
  change (greeks_evaluations (price_call S K T r q option (0.5 * (lo + hi))))
    with 0%nat.
  destruct (Rlt_dec (Rabs (p - target)) tol); [reflexivity | ].
  destruct (Rgt_dec p target); apply IH.
Qed.

End Loops.

(** ** Where the returned volatility lies *)

Section Range.

Variables target S K T r q : R.
Variable option : string.
Variable tol : R.

Let newton := newton_loop target S K T r q option tol.
Let bisection := bisection_loop target S K T r q option tol.

Lemma bisection_range (n : nat) (lo hi v : R) :
  lo <= hi -> outcome (bisection n lo hi) = Ok v -> lo <= v <= hi.
Proof.
  revert lo hi. induction n as [ | n IH]; intros lo hi Hle Hv.
  - cbv in Hv. injection Hv as <-. lra.
  - unfold bisection in Hv. rewrite bisection_loop_step in Hv.
    destruct (bs_price S K T r (0.5 * (lo + hi)) q option) as [p | e] eqn:Hp.
    + bind_call_in Hv Hp.
      destruct (Rlt_dec (Rabs (p - target)) tol).
      * cbv in Hv. injection Hv as <-. lra.
      * destruct (Rgt_dec p target); apply IH in Hv; lra.
    + bind_call_in Hv Hp. discriminate.
Qed.

Lemma newton_return_range (n : nat) (sigma v : R) :
  1e-6 <= sigma ->
  outcome (newton n sigma) = Ok (Return v) ->
  v = sigma \/ 1e-6 <= v <= 5.
Proof.
  revert sigma. induction n as [ | n IH]; intros sigma Hs Hv.
  - cbv in Hv. discriminate.
  - unfold newton in Hv. rewrite newton_loop_step in Hv.
    destruct (bs_price S K T r sigma q option) as [p | e] eqn:Hp.
    2:{ bind_call_in Hv Hp. discriminate. }
    bind_call_in Hv Hp.
    destruct (Rlt_dec (Rabs (p - target)) tol).
    { left. unfold ret, outcome in Hv. simpl in Hv. injection Hv as <-.
      unfold py_max. destruct (Rgt_dec sigma 1e-12); lra. }
    destruct (bs_greeks S K T r sigma q option) as [g | e] eqn:Hg.
    2:{ bind_call_in Hv Hg. discriminate. }
    bind_call_in Hv Hg.
    destruct (Rlt_dec (vega g) 1e-12); [discriminate | ].
    rewrite py_clamp in Hv. right.
    pose proof (clamp_range (sigma - (p - target) / vega g)) as Hc.
    apply IH in Hv; lra.
Qed.

Lemma implied_vol_range (seed v : R) (max_iter : Z) :
  outcome (implied_vol target S K T r q option seed tol max_iter) = Ok v ->
  v = py_max 1e-6 seed \/ 1e-6 <= v <= 5.
Proof.
  unfold implied_vol. intros Hv.
  destruct (outcome (newton (Z.to_nat max_iter) (py_max 1e-6 seed)))
    as [ex | e] eqn:Hn.
  2:{ bind_call_in Hv Hn. discriminate. }
  bind_call_in Hv Hn.
  destruct ex as [w | | ].
  - unfold ret, outcome in Hv. simpl in Hv. injection Hv as <-.
    apply (newton_return_range _ _ _ (py_max_floor seed) Hn).
  - right. apply bisection_range in Hv; lra.
  - right. apply bisection_range in Hv; lra.
Qed.

End Range.

(** ** The solver against the two phases of the specification *)

Section Refinement.

Variables target S K T r q : R.
Variable o : Spec.OptionType.
Variable tol : R.
Hypothesis S_pos : 0 < S.
Hypothesis K_pos : 0 < K.
Hypothesis T_pos : 0 < T.

Let option := Spec.option_string o.
Let newton := newton_loop target S K T r q option tol.
Let bisection := bisection_loop target S K T r q option tol.
Let price_at := fun sigma => Spec.price S K T r sigma q o.
Let vega_at := fun sigma => Spec.vega S K T r sigma q.

Lemma newton_phase_functional (n : nat) (sigma : R) (e e' : Spec.phase_end) :
  Spec.newton_phase price_at vega_at target tol n sigma e ->
  Spec.newton_phase price_at vega_at target tol n sigma e' ->
  e = e'.
Proof.
  intros H. revert e'.
  induction H; intros e' H'; inversion H'; subst;
    try reflexivity; try contradiction; auto.
Qed.

Lemma bisection_phase_functional (n : nat) (lo hi v v' : R) :
  Spec.bisection_phase price_at target tol n lo hi v ->
  Spec.bisection_phase price_at target tol n lo hi v' ->
  v = v'.
Proof.
  intros H. revert v'.
  induction H; intros v' H'; inversion H'; subst;
    try reflexivity; try contradiction; try lra; auto.
Qed.

Lemma newton_loop_refines (n : nat) (sigma : R) :
  0 < sigma ->
  exists ex, outcome (newton n sigma) = Ok ex
             /\ Spec.newton_phase price_at vega_at target tol n sigma
                  (phase_end_of ex).
Proof.
  revert sigma. induction n as [ | n IH]; intros sigma Hs.
  - exists Exhausted. split; [reflexivity | constructor].
  - unfold newton. rewrite newton_loop_step.
    pose proof (bs_price_valid S K T r sigma q o S_pos K_pos T_pos Hs) as Hp.
    destruct (bs_greeks_vega S K T r sigma q o S_pos K_pos T_pos Hs)
      as [g [Hg Hvega]].
    bind_call Hp.
    destruct (Rlt_dec (Rabs (Spec.price S K T r sigma q o - target)) tol)
      as [Hconv | Hconv].
    { exists (Return (py_max 1e-12 sigma)). split; [reflexivity | ].
      simpl. rewrite py_max_Rmax. now constructor. }
    bind_call Hg.
    destruct (Rlt_dec (vega g) 1e-12) as [Hflat | Hflat].
    { exists Break. split; [reflexivity | ].
      apply Spec.newton_flat_vega; [exact Hconv | ].
      unfold vega_at. now rewrite <- Hvega. }
    rewrite py_clamp, Hvega.
    pose proof (clamp_range
                  (sigma - (Spec.price S K T r sigma q o - target)
                           / Spec.vega S K T r sigma q)) as Hc.
    destruct (IH (Spec.clamp
                    (sigma - (Spec.price S K T r sigma q o - target)
                             / Spec.vega S K T r sigma q) 1e-6 5.0))
      as [ex [Hex Hphase]]; [lra | ].
    exists ex. split; [exact Hex | ].
    apply Spec.newton_update; [exact Hconv | | exact Hphase].
    unfold vega_at. now rewrite <- Hvega.
Qed.

Lemma bisection_loop_refines (n : nat) (lo hi : R) :
  0 < lo -> lo <= hi ->
  exists v, outcome (bisection n lo hi) = Ok v
            /\ Spec.bisection_phase price_at target tol n lo hi v.
Proof.
  revert lo hi. induction n as [ | n IH]; intros lo hi Hlo Hle.
  - exists (0.5 * (lo + hi)). split; [reflexivity | ].
    replace (0.5 * (lo + hi)) with ((lo + hi) / 2) by lra. constructor.
  - unfold bisection. rewrite bisection_loop_step.
    replace (0.5 * (lo + hi)) with ((lo + hi) / 2) by lra.
    assert (Hmid : 0 < (lo + hi) / 2) by lra.
    pose proof (bs_price_valid S K T r _ q o S_pos K_pos T_pos Hmid) as Hp.
    bind_call Hp.
    destruct (Rlt_dec (Rabs (Spec.price S K T r ((lo + hi) / 2) q o - target)) tol)
      as [Hhit | Hhit].
    { exists ((lo + hi) / 2). split; [reflexivity | now constructor]. }
    destruct (Rgt_dec (Spec.price S K T r ((lo + hi) / 2) q o) target)
      as [Hgt | Hgt].
    + destruct (IH lo ((lo + hi) / 2)) as [v [Hv Hphase]]; [lra | lra | ].
      exists v. split; [exact Hv | ].
      now apply Spec.bisection_shrink_above.
    + destruct (IH ((lo + hi) / 2) hi) as [v [Hv Hphase]]; [lra | lra | ].
      exists v. split; [exact Hv | ].
      apply Spec.bisection_shrink_below; [exact Hhit | | exact Hphase].
      unfold price_at. lra.
Qed.

(** When the tolerance cannot be met the bisection loop runs every step. *)
Lemma bisection_runs_all (n : nat) (lo hi : R) :
  tol <= 0 -> 0 < lo -> lo <= hi ->
  price_evaluations (bisection n lo hi) = n.
Proof.
  intros Htol. revert lo hi. induction n as [ | n IH]; intros lo hi Hlo Hle.
  - reflexivity.
  - unfold bisection. rewrite bisection_loop_step.
    assert (Hmid : 0 < 0.5 * (lo + hi)) by lra.
    pose proof (bs_price_valid S K T r _ q o S_pos K_pos T_pos Hmid) as Hp.
    unfold price_evaluations.
    match goal with
    | |- context [bind ?m ?k] => rewrite (calls_bind_ok m k _ Hp)
    end.
    rewrite filter_app, length_app.
    change (List.length (filter is_price_call
                      (calls (price_call S K T r q option (0.5 * (lo + hi))))))
      with 1%nat.
    destruct (Rlt_dec (Rabs (Spec.price S K T r (0.5 * (lo + hi)) q o - target)) tol)
      as [Hhit | Hhit].
    { pose proof (Rabs_pos (Spec.price S K T r (0.5 * (lo + hi)) q o - target)).
      lra. }
    destruct (Rgt_dec (Spec.price S K T r (0.5 * (lo + hi)) q o) target).
    + change (Datatypes.S (price_evaluations (bisection n lo (0.5 * (lo + hi))))
              = Datatypes.S n).
      f_equal. apply IH; lra.
    + change (Datatypes.S (price_evaluations (bisection n (0.5 * (lo + hi)) hi))
              = Datatypes.S n).
      f_equal. apply IH; lra.
Qed.

End Refinement.

(** ** A seed above the bracket *)

(** A Newton phase that meets the tolerance at its first step returns the
    floored seed, also when the seed lies above the bracket. *)
Lemma seed_returned_at_once :
  exists target,
    bs_price 100 100 1 0.05 10 0 "call" = Ok target
    /\ outcome (implied_vol target 100 100 1 0.05 0 "call" 10 1e-8 100) = Ok 10.
Proof.
  exists (Spec.price 100 100 1 0.05 10 0 Spec.Call).
  assert (Hp : bs_price 100 100 1 0.05 10 0 "call"
               = Ok (Spec.price 100 100 1 0.05 10 0 Spec.Call))
    by (apply (bs_price_valid 100 100 1 0.05 10 0 Spec.Call); lra).
  split; [exact Hp | ].
  assert (Hseed : py_max 1e-6 10 = 10)
    by (unfold py_max; destruct (Rgt_dec 10 1e-6); lra).
  assert (Hfloor : py_max 1e-12 10 = 10)
    by (unfold py_max; destruct (Rgt_dec 10 1e-12); lra).
  unfold implied_vol. rewrite Hseed.
  assert (Hn : outcome (newton_loop (Spec.price 100 100 1 0.05 10 0 Spec.Call)
                          100 100 1 0.05 0 "call" 1e-8 (Z.to_nat 100) 10)
               = Ok (Return 10)).
  { change (Z.to_nat 100) with (Datatypes.S 99). rewrite newton_loop_step.
    bind_call Hp.
    destruct (Rlt_dec _ 1e-8) as [_ | Hn].
    - rewrite Hfloor. reflexivity.
    - exfalso. apply Hn. unfold Rminus. rewrite Rplus_opp_r, Rabs_R0. lra. }
  bind_call Hn. reflexivity.
Qed.

(** ** Evaluations over binary64

    A run of the float model reaches the C library only through [exp], [log]
    and [erf].  Where every argument it passes is a special value, the run is
    the same for every library that meets [F64.annex_f], and it is computed
    here once and for all. *)

Section SpecialValues.

Import PrimFloat.
Local Open Scope float_scope.

Variables libm_exp libm_log libm_erf : float -> float.
Hypothesis libm_annex_f : F64.annex_f libm_exp libm_log libm_erf.

Lemma libm_special :
  F64.exp_special libm_exp = libm_exp
  /\ F64.log_special libm_log = libm_log
  /\ F64.erf_special libm_erf = libm_erf.
Proof.
  destruct libm_annex_f as (He0 & Hem0 & Hen & Hl1 & Hfi & Hfm & Hfn).
  repeat split; apply functional_extensionality; intro x.
  - unfold F64.exp_special.
    destruct (Leibniz.eqb x 0) eqn:E1.
    { apply FloatAxioms.Leibniz.eqb_spec in E1. subst x. symmetry. exact He0. }
    destruct (Leibniz.eqb x (-0)) eqn:E2.
    { apply FloatAxioms.Leibniz.eqb_spec in E2. subst x. symmetry. exact Hem0. }
    destruct (Leibniz.eqb x nan) eqn:E3.
    { apply FloatAxioms.Leibniz.eqb_spec in E3. subst x. symmetry. exact Hen. }
    reflexivity.
  - unfold F64.log_special.
    destruct (Leibniz.eqb x 1) eqn:E1.
    { apply FloatAxioms.Leibniz.eqb_spec in E1. subst x. symmetry. exact Hl1. }
    reflexivity.
  - unfold F64.erf_special.
    destruct (Leibniz.eqb x infinity) eqn:E1.
    { apply FloatAxioms.Leibniz.eqb_spec in E1. subst x. symmetry. exact Hfi. }
    destruct (Leibniz.eqb x neg_infinity) eqn:E2.
    { apply FloatAxioms.Leibniz.eqb_spec in E2. subst x. symmetry. exact Hfm. }
    destruct (Leibniz.eqb x nan) eqn:E3.
    { apply FloatAxioms.Leibniz.eqb_spec in E3. subst x. symmetry. exact Hfn. }
    reflexivity.
Qed.

End SpecialValues.

(** Replaces the library functions of the goal by their overridden versions
    and computes. *)
Ltac at_special_values H :=
  let He := fresh "He" in
  let Hl := fresh "Hl" in
  let Hf := fresh "Hf" in
  destruct (libm_special _ _ _ H) as (He & Hl & Hf);
  try rewrite <- He; try rewrite <- Hl; try rewrite <- Hf;
  clear He Hl Hf;
  vm_compute.

Section Evaluations.

Import PrimFloat.
Local Open Scope float_scope.

Lemma sample_annex_f : F64.annex_f F64.sample_exp F64.sample_log F64.sample_erf.
Proof. repeat split. Qed.

Variables libm_exp libm_log libm_erf : float -> float.
Hypothesis libm_annex_f : F64.annex_f libm_exp libm_log libm_erf.

(** [sigma * sqrt(T)] underflows to zero: [1e-200 * 1e-150]. *)
Lemma price_divides_by_zero :
  F64.bs_price libm_exp libm_log libm_erf 100 100 1e-300 0 1e-200 0 "call"
  = F64.Raise F64.ZeroDivisionError.
Proof. at_special_values libm_annex_f. reflexivity. Qed.

(** [0.5 * sigma * sigma * T] overflows: [d1] and [d2] are both infinite,
    [_Phi] is 1 at both and 0 at their opposites, and the two terms of the
    price cancel. *)
Lemma price_saturates (option : string) :
  option = "call"%string \/ option = "put"%string ->
  F64.bs_price libm_exp libm_log libm_erf 100 100 1e308 0 4 0 option = F64.Ok 0
  /\ F64.bs_price libm_exp libm_log libm_erf 100 100 1e308 0 5 0 option = F64.Ok 0.
Proof.
  intros [-> | ->]; at_special_values libm_annex_f; split; reflexivity.
Qed.

End Evaluations.

(** * The claims of the specification *)

(** ** Pricing *)

Section PriceOnFloats.

Import PrimFloat.
Local Open Scope float_scope.

(** C1, as the specification states it, fails on the floats the code
    computes with: S = K = 100, T = 1e-300 and sigma = 1e-200 are strictly
    positive, and [sigma * sqrt(T)] underflows to zero, so the division that
    defines d1 raises [ZeroDivisionError] and [bs_price] returns nothing. *)
Lemma price_raises_counterexample :
  ((0 <? 100) = true /\ (0 <? 1e-300) = true /\ (0 <? 1e-200) = true)
  /\ (forall libm_exp libm_log libm_erf : float -> float,
        F64.annex_f libm_exp libm_log libm_erf ->
        F64.bs_price libm_exp libm_log libm_erf 100 100 1e-300 0 1e-200 0 "call"
        = F64.Raise F64.ZeroDivisionError).
Proof.
  split; [repeat split | ].
  intros libm_exp libm_log libm_erf H.
  exact (price_divides_by_zero libm_exp libm_log libm_erf H).
Qed.

End PriceOnFloats.

(** C1, amended: over exact reals, for S, K, T and sigma strictly positive,
    the validation gate yields
    d1 = (ln(S/K) + (r - q + 0.5 sigma^2) T) / (sigma sqrt T) and
    d2 = d1 - sigma sqrt T, and [bs_price] returns the closed form:
    S discQ Phi(d1) - K discR Phi(d2) for a call and
    K discR Phi(-d2) - S discQ Phi(-d1) for a put, with discR = exp(-rT)
    and discQ = exp(-qT). *)
Theorem price_closed_form (S K T r sigma q : R) :
  0 < S -> 0 < K -> 0 < T -> 0 < sigma ->
  let d1 := (ln (S / K) + (r - q + 0.5 * sigma ^ 2) * T) / (sigma * sqrt T) in
  let d2 := d1 - sigma * sqrt T in
  let discR := exp (- (r * T)) in
  let discQ := exp (- (q * T)) in
  _d1_d2 S K T r sigma q = Ok (d1, d2)
  /\ bs_price S K T r sigma q "call"
     = Ok (S * discQ * _Phi d1 - K * discR * _Phi d2)
  /\ bs_price S K T r sigma q "put"
     = Ok (K * discR * _Phi (- d2) - S * discQ * _Phi (- d1)).
Proof.
  intros HS HK HT Hs d1 d2 discR discQ.
  assert (Hd1 : d1 = Spec.d1 S K T r sigma q).
  { unfold d1, Spec.d1. replace (0.5 * sigma ^ 2) with (sigma ^ 2 / 2) by lra.
    reflexivity. }
  assert (Hd2 : d2 = Spec.d2 S K T r sigma q).
  { unfold d2, Spec.d2. now rewrite Hd1. }
  rewrite Hd1, Hd2. repeat split.
  - now apply _d1_d2_valid.
  - exact (bs_price_valid S K T r sigma q Spec.Call HS HK HT Hs).
  - exact (bs_price_valid S K T r sigma q Spec.Put HS HK HT Hs).
Qed.

Lemma price_closed_form_witness :
  (0 < 100 /\ 0 < 1 /\ 0 < 0.2)
  /\ exists c p, bs_price 100 100 1 0.05 0.2 0 "call" = Ok c
                 /\ bs_price 100 100 1 0.05 0.2 0 "put" = Ok p.
Proof.
  split; [lra | ].
  destruct (price_closed_form 100 100 1 0.05 0.2 0) as [_ [Hc Hp]]; try lra.
  eexists. eexists. split; [exact Hc | exact Hp].
Defined.

Section GateOnFloats.

Import PrimFloat.
Local Open Scope float_scope.

(** C4: the gate does not reject every input that is not strictly
    positive.  Its test is [v <= 0], which is false of NaN, as [0 < v] is:
    with S = NaN the gate returns (NaN, NaN), [bs_price] returns NaN and
    [bs_greeks] a record of NaNs, on every C library that propagates NaN
    and has exp(-0.0) = 1. *)
Theorem nan_passes_the_gate (libm_exp libm_log libm_erf : float -> float) :
  F64.annex_f libm_exp libm_log libm_erf ->
  ((0 <? nan) = false /\ (nan <=? 0) = false)
  /\ F64._d1_d2 libm_log nan 100 1 0 0.2 0 = F64.Ok (nan, nan)
  /\ F64.bs_price libm_exp libm_log libm_erf nan 100 1 0 0.2 0 "call" = F64.Ok nan
  /\ F64.bs_greeks libm_exp libm_log libm_erf nan 100 1 0 0.2 0 "call"
     = F64.Ok (F64.mkGreeks nan nan nan nan nan).
Proof.
  intros H. at_special_values H. repeat split.
Qed.

Lemma nan_passes_the_gate_witness :
  F64.annex_f F64.sample_exp F64.sample_log F64.sample_erf
  /\ F64.bs_price F64.sample_exp F64.sample_log F64.sample_erf
       nan 100 1 0 0.2 0 "call" = F64.Ok nan.
Proof.
  split; [repeat split | ].
  apply (nan_passes_the_gate F64.sample_exp F64.sample_log F64.sample_erf).
  repeat split.
Defined.

End GateOnFloats.

(** C5, as the specification states it, fails: the option type of the code
    is a string, and for valid market inputs the string "straddle" makes
    [bs_price] raise at run time while [bs_greeks] returns a record. *)
Lemma option_string_counterexample :
  bs_price 100 100 1 0.05 0.2 0 "straddle" = Raise (ValueError option_msg)
  /\ exists g, bs_greeks 100 100 1 0.05 0.2 0 "straddle" = Ok g.
Proof.
  assert (Hd : _d1_d2 100 100 1 0.05 0.2 0
               = Ok (Spec.d1 100 100 1 0.05 0.2 0, Spec.d2 100 100 1 0.05 0.2 0))
    by (apply _d1_d2_valid; lra).
  unfold bs_price, bs_greeks. rewrite Hd. simpl.
  split; [reflexivity | eexists; reflexivity].
Qed.

(** C5, amended: when S, K, T or sigma is zero or negative, [bs_greeks]
    fails as [bs_price] does, with the [ValueError] of the gate they share,
    for every option string; and the option string is checked by [bs_price]
    when it runs: it returns a price for no string but "call" and "put". *)
Theorem greeks_fails_as_price (S K T r sigma q : R) (option : string) :
  (S <= 0 \/ K <= 0 \/ T <= 0 \/ sigma <= 0 ->
   bs_price S K T r sigma q option = Raise (ValueError gate_msg)
   /\ bs_greeks S K T r sigma q option = Raise (ValueError gate_msg))
  /\ (forall p : R,
        bs_price S K T r sigma q option = Ok p ->
        option = "call"%string \/ option = "put"%string).
Proof.
  split.
  - intros Hinv.
    assert (Hg : _d1_d2 S K T r sigma q = Raise (ValueError gate_msg))
      by (apply _d1_d2_invalid; lra).
    unfold bs_price, bs_greeks. rewrite Hg. split; reflexivity.
  - intros p. apply bs_price_checks_option.
Qed.

(** C7: put-call parity: for S, K, T, sigma strictly positive the call
    price minus the put price is S exp(-qT) - K exp(-rT), exactly, and so
    within 1e-6. *)
Theorem put_call_parity (S K T r sigma q : R) :
  0 < S -> 0 < K -> 0 < T -> 0 < sigma ->
  exists c p,
    bs_price S K T r sigma q "call" = Ok c
    /\ bs_price S K T r sigma q "put" = Ok p
    /\ c - p = S * exp (- (q * T)) - K * exp (- (r * T))
    /\ Rabs (c - p - (S * exp (- (q * T)) - K * exp (- (r * T)))) < 1e-6.
Proof.
  intros HS HK HT Hs.
  exists (Spec.price S K T r sigma q Spec.Call), (Spec.price S K T r sigma q Spec.Put).
  split; [exact (bs_price_valid S K T r sigma q Spec.Call HS HK HT Hs) | ].
  split; [exact (bs_price_valid S K T r sigma q Spec.Put HS HK HT Hs) | ].
  pose proof (closed_form_parity S K T r q sigma) as Hpar.
  split; [exact Hpar | ].
  rewrite Hpar. replace (_ - _ - _) with 0 by ring. rewrite Rabs_R0. lra.
Qed.

Lemma put_call_parity_witness :
  (0 < 100 /\ 0 < 1 /\ 0 < 0.2)
  /\ exists c p,
       bs_price 100 100 1 0.05 0.2 0 "call" = Ok c
       /\ bs_price 100 100 1 0.05 0.2 0 "put" = Ok p
       /\ c - p = 100 * exp (- (0 * 1)) - 100 * exp (- (0.05 * 1)).
Proof.
  split; [lra | ].
  destruct (put_call_parity 100 100 1 0.05 0.2 0) as [c [p [Hc [Hp [Heq _]]]]];
    try lra.
  exists c, p. repeat split; assumption.
Defined.

Section MonotonicityOnFloats.

Import PrimFloat.
Local Open Scope float_scope.

(** C8, as the specification states it, fails on the floats the code
    computes with: for S = K = 100 and T = 1e308 the volatilities 4 and 5
    lie in (0, 5.0] and are priced alike, at 0.0, for both option types
    ([0.5 * sigma * sigma * T] overflows at both). *)
Lemma price_flat_counterexample :
  ((0 <? 4) = true /\ (4 <? 5) = true /\ (5 <=? 5.0) = true)
  /\ (forall libm_exp libm_log libm_erf : float -> float,
        F64.annex_f libm_exp libm_log libm_erf ->
        forall option : string,
          option = "call"%string \/ option = "put"%string ->
          F64.bs_price libm_exp libm_log libm_erf 100 100 1e308 0 4 0 option
          = F64.Ok 0
          /\ F64.bs_price libm_exp libm_log libm_erf 100 100 1e308 0 5 0 option
             = F64.Ok 0).
Proof.
  split; [repeat split | ].
  intros libm_exp libm_log libm_erf H option Hoption.
  exact (price_saturates libm_exp libm_log libm_erf H option Hoption).
Qed.

End MonotonicityOnFloats.

(** C8, amended: over exact reals, for S, K, T strictly positive and either
    option type, the price is strictly increasing in sigma over (0, 5]. *)
Theorem price_increasing_in_sigma (S K T r q : R) (option : string) (s1 s2 : R) :
  0 < S -> 0 < K -> 0 < T ->
  option = "call"%string \/ option = "put"%string ->
  0 < s1 -> s1 < s2 -> s2 <= 5.0 ->
  exists p1 p2,
    bs_price S K T r s1 q option = Ok p1
    /\ bs_price S K T r s2 q option = Ok p2
    /\ p1 < p2.
Proof.
  intros HS HK HT Hopt H1 H12 _.
  assert (Ho : exists o, option = Spec.option_string o).
  { destruct Hopt as [-> | ->]; [now exists Spec.Call | now exists Spec.Put]. }
  destruct Ho as [o ->].
  exists (Spec.price S K T r s1 q o), (Spec.price S K T r s2 q o).
  split; [apply bs_price_valid; lra | ].
  split; [apply bs_price_valid; lra | ].
  now apply price_increasing.
Qed.

Lemma price_increasing_in_sigma_witness :
  (0 < 100 /\ 0 < 1 /\ 0 < 0.2 /\ 0.2 < 0.3 /\ 0.3 <= 5.0)
  /\ exists p1 p2,
       bs_price 100 100 1 0.05 0.2 0 "put" = Ok p1
       /\ bs_price 100 100 1 0.05 0.3 0 "put" = Ok p2
       /\ p1 < p2.
Proof.
  split; [lra | ].
  apply (price_increasing_in_sigma 100 100 1 0.05 0 "put" 0.2 0.3);
    try lra.
  right. reflexivity.
Defined.

(** ** The solver *)

(** C2: the Newton phase.  For valid market inputs the solver starts the
    Newton phase of the specification at max(1e-6, seed) with max_iter steps
    at most; the phase always ends; when it ends with a volatility the
    solver returns that volatility (max(1e-12, sigma) at the step where
    |price - target| < tol), and when it hands over (vega below 1e-12, or
    budget exhausted) the solver continues with the bisection on
    [1e-6, 5.0]. *)
Theorem newton_phase_refinement
        (target S K T r q : R) (o : Spec.OptionType) (seed tol : R) (max_iter : Z) :
  0 < S -> 0 < K -> 0 < T ->
  let price_at := fun sigma => Spec.price S K T r sigma q o in
  let vega_at := fun sigma => Spec.vega S K T r sigma q in
  let phase :=
    Spec.newton_phase price_at vega_at target tol
      (Z.to_nat max_iter) (Rmax 1e-6 seed) in
  let solve := implied_vol target S K T r q (Spec.option_string o) seed tol max_iter in
  (exists e, phase e)
  /\ (forall v, phase (Spec.Converged v) -> outcome solve = Ok v)
  /\ (phase Spec.ToBisection ->
      outcome solve
      = outcome (bisection_loop target S K T r q (Spec.option_string o)
                   tol 200 1e-6 5.0)).
Proof.
  intros HS HK HT price_at vega_at phase solve.
  destruct (newton_loop_refines target S K T r q o tol HS HK HT
              (Z.to_nat max_iter) (py_max 1e-6 seed)) as [ex [Hex Hph]].
  { pose proof (py_max_floor seed). lra. }
  rewrite py_max_Rmax in Hph. fold price_at vega_at phase in Hph.
  assert (Hfun : forall e, phase e -> e = phase_end_of ex).
  { intros e He.
    exact (newton_phase_functional target S K T r q o tol _ _ _ _ He Hph). }
  split; [now exists (phase_end_of ex) | ].
  unfold solve, implied_vol. split.
  - intros v Hv. apply Hfun in Hv. bind_call Hex.
    destruct ex; simpl in Hv; try discriminate.
    now injection Hv as ->.
  - intros Hb. apply Hfun in Hb. bind_call Hex.
    destruct ex; simpl in Hb; try discriminate; reflexivity.
Qed.

Lemma newton_phase_refinement_witness :
  (0 < 100 /\ 0 < 1)
  /\ exists e,
       Spec.newton_phase (fun sigma => Spec.price 100 100 1 0.05 sigma 0 Spec.Call)
         (fun sigma => Spec.vega 100 100 1 0.05 sigma 0) 10 1e-8
         (Z.to_nat 100) (Rmax 1e-6 0.2) e.
Proof.
  split; [lra | ].
  destruct (newton_phase_refinement 10 100 100 1 0.05 0 Spec.Call 0.2 1e-8 100)
    as [He _]; try lra.
  exact He.
Defined.

(** C3: the bisection phase.  For valid market inputs the bisection phase of
    the specification, with 200 steps on [1e-6, 5.0], always returns a value,
    and the bisection loop of the code returns that value; the solver runs
    the loop only when the Newton phase hands over, after the Newton calls,
    and then returns its value; the loop evaluates the price at most 200
    times, and exactly 200 times when the tolerance cannot be met. *)
Theorem bisection_phase_refinement
        (target S K T r q : R) (o : Spec.OptionType) (seed tol : R) (max_iter : Z) :
  0 < S -> 0 < K -> 0 < T ->
  let price_at := fun sigma => Spec.price S K T r sigma q o in
  let vega_at := fun sigma => Spec.vega S K T r sigma q in
  let newton_phase :=
    Spec.newton_phase price_at vega_at target tol
      (Z.to_nat max_iter) (Rmax 1e-6 seed) in
  let bisection_phase := Spec.bisection_phase price_at target tol 200 1e-6 5.0 in
  let option := Spec.option_string o in
  let solve := implied_vol target S K T r q option seed tol max_iter in
  let newton :=
    newton_loop target S K T r q option tol (Z.to_nat max_iter) (py_max 1e-6 seed) in
  let bisection := bisection_loop target S K T r q option tol 200 1e-6 5.0 in
  (exists v, bisection_phase v)
  /\ (forall v, bisection_phase v -> outcome bisection = Ok v)
  /\ (forall v, newton_phase (Spec.Converged v) -> calls solve = calls newton)
  /\ (newton_phase Spec.ToBisection ->
      outcome solve = outcome bisection
      /\ calls solve = calls newton ++ calls bisection)
  /\ (price_evaluations bisection <= 200)%nat
  /\ (tol <= 0 -> price_evaluations bisection = 200%nat).
Proof.
  intros HS HK HT price_at vega_at newton_phase bisection_phase option solve
         newton bisection.
  destruct (bisection_loop_refines target S K T r q o tol HS HK HT 200 1e-6 5.0)
    as [w [Hw Hphase]]; [lra | lra | ].
  fold option bisection in Hw. fold price_at bisection_phase in Hphase.
  destruct (newton_loop_refines target S K T r q o tol HS HK HT
              (Z.to_nat max_iter) (py_max 1e-6 seed)) as [ex [Hex Hph]].
  { pose proof (py_max_floor seed). lra. }
  rewrite py_max_Rmax in Hph. fold price_at vega_at newton_phase in Hph.
  fold option newton in Hex.
  assert (Hfun : forall e, newton_phase e -> e = phase_end_of ex).
  { intros e He.
    exact (newton_phase_functional target S K T r q o tol _ _ _ _ He Hph). }
  split; [now exists w | ].
  split.
  { intros v Hv. rewrite Hw. f_equal.
    exact (bisection_phase_functional target S K T r q o tol _ _ _ _ _ Hphase Hv). }
  split.
  { intros v Hv. apply Hfun in Hv. unfold solve, implied_vol. fold option newton.
    match goal with
    | |- context [bind ?m ?k] => rewrite (calls_bind_ok m k _ Hex)
    end.
    destruct ex; simpl in Hv; try discriminate.
    simpl. now rewrite app_nil_r. }
  split.
  { intros Hb. apply Hfun in Hb. unfold solve, implied_vol. fold option newton.
    split.
    - bind_call Hex. destruct ex; simpl in Hb; try discriminate; reflexivity.
    - match goal with
      | |- context [bind ?m ?k] => rewrite (calls_bind_ok m k _ Hex)
      end.
      destruct ex; simpl in Hb; try discriminate; reflexivity. }
  split.
  { apply bisection_price_evaluations. }
  intros Htol.
  apply (bisection_runs_all target S K T r q o tol HS HK HT 200 1e-6 5.0 Htol); lra.
Qed.

Lemma bisection_phase_refinement_witness :
  (0 < 100 /\ 0 < 1)
  /\ exists v,
       Spec.bisection_phase (fun sigma => Spec.price 100 100 1 0.05 sigma 0 Spec.Put)
         10 1e-8 200 1e-6 5.0 v.
Proof.
  split; [lra | ].
  destruct (bisection_phase_refinement 10 100 100 1 0.05 0 Spec.Put 0.2 1e-8 100)
    as [Hv _]; try lra.
  exact Hv.
Defined.

(** C6, as the specification states it, fails: the seed is floored at 1e-6
    but not capped at 5.0, so a seed of 10 that meets the tolerance at the
    first Newton step is returned as it is, outside (0, 5.0]. *)
Lemma seed_above_bracket_counterexample :
  exists target,
    bs_price 100 100 1 0.05 10 0 "call" = Ok target
    /\ outcome (implied_vol target 100 100 1 0.05 0 "call" 10 1e-8 100) = Ok 10
    /\ ~ (0 < 10 <= 5.0).
Proof.
  destruct seed_returned_at_once as [target [Hp Hv]].
  exists target. repeat split; [exact Hp | exact Hv | lra].
Qed.

(** C6, amended: every volatility the solver returns lies in
    [1e-6, max(5.0, seed)], hence in (0, 5.0] when the seed is at most 5.0,
    for every tolerance and iteration budget. *)
Theorem implied_vol_result_range
        (target S K T r q : R) (option : string) (seed tol : R) (max_iter : Z)
        (v : R) :
  outcome (implied_vol target S K T r q option seed tol max_iter) = Ok v ->
  1e-6 <= v <= Rmax 5.0 seed /\ (seed <= 5.0 -> 0 < v <= 5.0).
Proof.
  intros Hres. apply implied_vol_range in Hres.
  assert (Hv : 1e-6 <= v <= Rmax 5.0 seed).
  { unfold py_max, Rmax in *.
    destruct (Rgt_dec seed 1e-6), (Rle_dec 5.0 seed); lra. }
  split; [exact Hv | ].
  intros Hseed. rewrite Rmax_left in Hv by exact Hseed. lra.
Qed.

Lemma implied_vol_result_range_witness :
  exists target,
    outcome (implied_vol target 100 100 1 0.05 0 "call" 10 1e-8 100) = Ok 10
    /\ 1e-6 <= 10 <= Rmax 5.0 10.
Proof.
  destruct seed_returned_at_once as [target [_ Hv]].
  exists target. split; [exact Hv | ].
  exact (proj1 (implied_vol_result_range target 100 100 1 0.05 0 "call"
                  10 1e-8 100 10 Hv)).
Defined.

(** C9: the solver is a total function, and both its loops are bounded: a
    call evaluates the price at most max_iter + 200 times and the Greeks at
    most max_iter times, so at most 100 + 200 = 300 pricing evaluations with
    the default budget of 100. *)
Theorem implied_vol_evaluation_bound
        (target S K T r q : R) (option : string) (seed tol : R) (max_iter : Z) :
  (price_evaluations (implied_vol target S K T r q option seed tol max_iter)
   <= Z.to_nat max_iter + 200)%nat
  /\ (greeks_evaluations (implied_vol target S K T r q option seed tol max_iter)
      <= Z.to_nat max_iter)%nat
  /\ (price_evaluations (implied_vol target S K T r q option seed tol default_max_iter)
      <= 100 + 200)%nat.
Proof.
  assert (Hprice : forall n : Z,
             (price_evaluations (implied_vol target S K T r q option seed tol n)
              <= Z.to_nat n + 200)%nat).
  { intros n. unfold implied_vol.
    pose proof (newton_price_evaluations target S K T r q option tol
                  (Z.to_nat n) (py_max 1e-6 seed)) as Hn.
    match goal with
    | |- context [bind ?m ?k] =>
        destruct (price_evaluations_bind m k) as [-> | [ex [_ ->]]]
    end; [lia | ].
    pose proof (bisection_price_evaluations target S K T r q option tol
                  200 1e-6 5.0) as Hb.
    destruct ex; [change (price_evaluations (ret v)) with 0%nat | | ]; lia. }
  split; [apply Hprice | ].
  split; [ | exact (Hprice default_max_iter)].
  unfold implied_vol.
  pose proof (newton_greeks_evaluations target S K T r q option tol
                (Z.to_nat max_iter) (py_max 1e-6 seed)) as Hn.
  match goal with
  | |- context [bind ?m ?k] =>
      destruct (greeks_evaluations_bind m k) as [-> | [ex [_ ->]]]
  end; [lia | ].
  pose proof (bisection_greeks_evaluations target S K T r q option tol
                200 1e-6 5.0) as Hb.
  destruct ex; [change (greeks_evaluations (ret v)) with 0%nat | | ]; lia.
Qed.

Section SolverOnFloats.

Import PrimFloat.
Local Open Scope float_scope.

(** C10: the solver does not raise on every S, K or T that is not strictly
    positive.  It has no validation of its own, and the gate of the pricing
    functions lets NaN through: with S = NaN every price and every vega is
    NaN, no comparison succeeds, each Newton update is clamped to 1e-6, the
    200 bisection steps all move [lo], and the solver returns 5.0. *)
Theorem solver_returns_on_nan_spot (libm_exp libm_log libm_erf : float -> float) :
  F64.annex_f libm_exp libm_log libm_erf ->
  (0 <? nan) = false
  /\ F64.implied_vol libm_exp libm_log libm_erf
       10 nan 100 1 0 0 "call" 0.2 1e-8 100
     = F64.Ok 5.0.
Proof.
  intros H. at_special_values H. split; reflexivity.
Qed.

Lemma solver_returns_on_nan_spot_witness :
  F64.annex_f F64.sample_exp F64.sample_log F64.sample_erf
  /\ F64.implied_vol F64.sample_exp F64.sample_log F64.sample_erf
       10 nan 100 1 0 0 "call" 0.2 1e-8 100
     = F64.Ok 5.0.
Proof.
  split; [repeat split | ].
  apply (solver_returns_on_nan_spot F64.sample_exp F64.sample_log F64.sample_erf).
  repeat split.
Defined.

End SolverOnFloats.

(** * Further properties of the code *)

(** ** The Greeks as sensitivities of the price *)

Section Sensitivities.

(** The derivative of [u Phi(f1) - w Phi(f2)], the shape of the call price
    in any one of its arguments. *)
Lemma derivable_pt_lim_call_shape (u w f1 f2 : R -> R) (x u' w' f1' f2' : R) :
  derivable_pt_lim u x u' -> derivable_pt_lim w x w' ->
  derivable_pt_lim f1 x f1' -> derivable_pt_lim f2 x f2' ->
  derivable_pt_lim (fun y => u y * _Phi (f1 y) - w y * _Phi (f2 y)) x
    (u' * _Phi (f1 x) + u x * (_phi (f1 x) * f1')
     - (w' * _Phi (f2 x) + w x * (_phi (f2 x) * f2'))).
Proof.
  intros Hu Hw H1 H2.
  apply (derivable_pt_lim_minus (fun y => u y * _Phi (f1 y))
           (fun y => w y * _Phi (f2 y))).
  - apply (derivable_pt_lim_mult u (fun y => _Phi (f1 y))); [exact Hu | ].
    apply (derivable_pt_lim_comp f1 _Phi); [exact H1 | apply derivable_pt_lim_Phi].
  - apply (derivable_pt_lim_mult w (fun y => _Phi (f2 y))); [exact Hw | ].
    apply (derivable_pt_lim_comp f2 _Phi); [exact H2 | apply derivable_pt_lim_Phi].
Qed.

(** The put price is the call price less [S discQ - K discR]. *)
Lemma put_from_call (S K T r sigma q : R) :
  Spec.price S K T r sigma q Spec.Put
  = Spec.price S K T r sigma q Spec.Call
    - (S * Spec.discQ q T - K * Spec.discR r T).
Proof. unfold Spec.price. rewrite !_Phi_opp. ring. Qed.

Lemma derivable_pt_lim_linear (a b x : R) :
  derivable_pt_lim (fun y => a * y + b) x a.
Proof.
  pose proof (derivable_pt_lim_plus (mult_real_fct a id) (fct_cte b) x (a * 1) 0
                (derivable_pt_lim_scal id a x 1 (derivable_pt_lim_id x))
                (derivable_pt_lim_const b x)) as H.
  replace (a * 1 + 0) with a in H by ring. exact H.
Qed.

Lemma derivable_pt_lim_exp_linear (a x : R) :
  derivable_pt_lim (fun y => exp (- (a * y))) x (- a * exp (- (a * x))).
Proof.
  replace (- a * exp (- (a * x))) with (exp (- (a * x)) * (- a)) by ring.
  apply (derivable_pt_lim_comp (fun y => - (a * y)) exp).
  - apply (derivable_pt_lim_ext (fun y => - a * y + 0)).
    + intros z. ring.
    + apply derivable_pt_lim_linear.
  - apply derivable_pt_lim_exp.
Qed.

Lemma price_value_valid (S K T r sigma q : R) (o : Spec.OptionType) :
  0 < S -> 0 < K -> 0 < T -> 0 < sigma ->
  price_value S K T r sigma q (Spec.option_string o) = Spec.price S K T r sigma q o.
Proof.
  intros HS HK HT Hs. unfold price_value. now rewrite bs_price_valid.
Qed.

Lemma bs_greeks_call (S K T r sigma q : R) :
  0 < S -> 0 < K -> 0 < T -> 0 < sigma ->
  let d1 := Spec.d1 S K T r sigma q in
  let d2 := Spec.d2 S K T r sigma q in
  bs_greeks S K T r sigma q "call"
  = Ok (mkGreeks
          (Spec.discQ q T * _Phi d1)
          (Spec.discQ q T * _phi d1 / (S * sigma * sqrt T))
          (S * Spec.discQ q T * _phi d1 * sqrt T)
          (- S * Spec.discQ q T * _phi d1 * sigma / (2 * sqrt T)
           - r * K * Spec.discR r T * _Phi d2
           + q * S * Spec.discQ q T * _Phi d1)
          (K * T * Spec.discR r T * _Phi d2)).
Proof.
  intros HS HK HT Hs d1 d2. unfold bs_greeks.
  rewrite _d1_d2_valid by assumption. unfold Spec.discQ, Spec.discR.
  replace (- q * T) with (- (q * T)) by ring.
  replace (- r * T) with (- (r * T)) by ring.
  reflexivity.
Qed.

Lemma bs_greeks_put (S K T r sigma q : R) :
  0 < S -> 0 < K -> 0 < T -> 0 < sigma ->
  let d1 := Spec.d1 S K T r sigma q in
  let d2 := Spec.d2 S K T r sigma q in
  bs_greeks S K T r sigma q "put"
  = Ok (mkGreeks
          (Spec.discQ q T * (_Phi d1 - 1.0))
          (Spec.discQ q T * _phi d1 / (S * sigma * sqrt T))
          (S * Spec.discQ q T * _phi d1 * sqrt T)
          (- S * Spec.discQ q T * _phi d1 * sigma / (2 * sqrt T)
           + r * K * Spec.discR r T * _Phi (- d2)
           - q * S * Spec.discQ q T * _Phi (- d1))
          (- K * T * Spec.discR r T * _Phi (- d2))).
Proof.
  intros HS HK HT Hs d1 d2. unfold bs_greeks.
  rewrite _d1_d2_valid by assumption. unfold Spec.discQ, Spec.discR.
  replace (- q * T) with (- (q * T)) by ring.
  replace (- r * T) with (- (r * T)) by ring.
  reflexivity.
Qed.

Lemma derivable_pt_lim_d1_S (S K T r sigma q : R) :
  0 < S -> 0 < K ->
  derivable_pt_lim (fun s => Spec.d1 s K T r sigma q) S (/ S / (sigma * sqrt T)).
Proof.
  intros HS HK. unfold Spec.d1.
  apply (derivable_pt_lim_div_scal
           (fun s => ln (s / K) + (r - q + sigma ^ 2 / 2) * T)).
  replace (/ S) with (/ (S / K) * (1 / K) + 0) by (field; lra).
  apply (derivable_pt_lim_plus (fun s => ln (s / K))
           (fct_cte ((r - q + sigma ^ 2 / 2) * T))).
  - apply (derivable_pt_lim_comp (fun s => s / K) ln).
    + apply (derivable_pt_lim_div_scal id), derivable_pt_lim_id.
    + apply derivable_pt_lim_ln. apply Rdiv_lt_0_compat; assumption.
  - apply derivable_pt_lim_const.
Qed.

Lemma derivable_pt_lim_d2_S (S K T r sigma q : R) :
  0 < S -> 0 < K ->
  derivable_pt_lim (fun s => Spec.d2 s K T r sigma q) S (/ S / (sigma * sqrt T)).
Proof.
  intros HS HK. unfold Spec.d2.
  replace (/ S / (sigma * sqrt T)) with (/ S / (sigma * sqrt T) - 0) by ring.
  apply (derivable_pt_lim_minus (fun s => Spec.d1 s K T r sigma q)
           (fct_cte (sigma * sqrt T))).
  - now apply derivable_pt_lim_d1_S.
  - apply derivable_pt_lim_const.
Qed.

Lemma derivable_pt_lim_d1_r (S K T r sigma q : R) :
  derivable_pt_lim (fun x => Spec.d1 S K T x sigma q) r (T / (sigma * sqrt T)).
Proof.
  unfold Spec.d1.
  apply (derivable_pt_lim_div_scal
           (fun x => ln (S / K) + (x - q + sigma ^ 2 / 2) * T)).
  apply (derivable_pt_lim_ext
           (fun x => T * x + (ln (S / K) + (- q + sigma ^ 2 / 2) * T))).
  - intros z. ring.
  - apply derivable_pt_lim_linear.
Qed.

Lemma derivable_pt_lim_d2_r (S K T r sigma q : R) :
  derivable_pt_lim (fun x => Spec.d2 S K T x sigma q) r (T / (sigma * sqrt T)).
Proof.
  unfold Spec.d2.
  replace (T / (sigma * sqrt T)) with (T / (sigma * sqrt T) - 0) by ring.
  apply (derivable_pt_lim_minus (fun x => Spec.d1 S K T x sigma q)
           (fct_cte (sigma * sqrt T))).
  - apply derivable_pt_lim_d1_r.
  - apply derivable_pt_lim_const.
Qed.

Lemma derivable_pt_lim_vsqrt (sigma T : R) :
  0 < T ->
  derivable_pt_lim (fun t => sigma * sqrt t) T (sigma * / (2 * sqrt T)).
Proof.
  intros HT.
  apply (derivable_pt_lim_scal sqrt), derivable_pt_lim_sqrt, HT.
Qed.

Lemma derivable_pt_lim_d1_T (S K T r sigma q : R) :
  0 < T -> 0 < sigma ->
  derivable_pt_lim (fun t => Spec.d1 S K t r sigma q) T (d1_T S K T r sigma q).
Proof.
  intros HT Hs. unfold Spec.d1, d1_T.
  apply (derivable_pt_lim_div
           (fun t => ln (S / K) + (r - q + sigma ^ 2 / 2) * t)
           (fun t => sigma * sqrt t)).
  - apply (derivable_pt_lim_ext
             (fun t => (r - q + sigma ^ 2 / 2) * t + ln (S / K))).
    + intros z. ring.
    + apply derivable_pt_lim_linear.
  - now apply derivable_pt_lim_vsqrt.
  - pose proof (sqrt_lt_R0 T HT). nra.
Qed.

Lemma derivable_pt_lim_d2_T (S K T r sigma q : R) :
  0 < T -> 0 < sigma ->
  derivable_pt_lim (fun t => Spec.d2 S K t r sigma q) T
    (d1_T S K T r sigma q - sigma * / (2 * sqrt T)).
Proof.
  intros HT Hs. unfold Spec.d2.
  apply (derivable_pt_lim_minus (fun t => Spec.d1 S K t r sigma q)
           (fun t => sigma * sqrt t)).
  - now apply derivable_pt_lim_d1_T.
  - now apply derivable_pt_lim_vsqrt.
Qed.

Lemma balance_algebra (x p1 y p2 a b c d : R) :
  x * p1 = y * p2 ->
  a + x * (p1 * c) - (b + y * (p2 * d)) = a - b + x * p1 * (c - d).
Proof.
  intros H. replace (y * (p2 * d)) with (y * p2 * d) by ring.
  rewrite <- H. ring.
Qed.

Lemma derivable_pt_lim_call_S (S K T r sigma q : R) :
  0 < S -> 0 < K -> 0 < T -> 0 < sigma ->
  derivable_pt_lim (fun s => Spec.price s K T r sigma q Spec.Call) S
    (Spec.discQ q T * _Phi (Spec.d1 S K T r sigma q)).
Proof.
  intros HS HK HT Hs.
  pose proof (derivable_pt_lim_call_shape
                (fun s => id s * Spec.discQ q T) (fct_cte (K * Spec.discR r T))
                (fun s => Spec.d1 s K T r sigma q) (fun s => Spec.d2 s K T r sigma q)
                S _ _ _ _
                (derivable_pt_lim_scal_right id S 1 _ (derivable_pt_lim_id S))
                (derivable_pt_lim_const _ S)
                (derivable_pt_lim_d1_S S K T r sigma q HS HK)
                (derivable_pt_lim_d2_S S K T r sigma q HS HK)) as H.
  unfold id, fct_cte in H.
  rewrite (balance_algebra _ _ _ _ _ _ _ _
             (density_balance S K T r q HS HK HT sigma Hs)) in H.
  match type of H with
  | derivable_pt_lim _ _ ?v =>
      replace v with (Spec.discQ q T * _Phi (Spec.d1 S K T r sigma q)) in H by ring
  end.
  exact H.
Qed.

Lemma derivable_pt_lim_call_r (S K T r sigma q : R) :
  0 < S -> 0 < K -> 0 < T -> 0 < sigma ->
  derivable_pt_lim (fun x => Spec.price S K T x sigma q Spec.Call) r
    (K * T * Spec.discR r T * _Phi (Spec.d2 S K T r sigma q)).
Proof.
  intros HS HK HT Hs.
  assert (Hw : derivable_pt_lim (fun x => K * Spec.discR x T) r
                 (K * (- T * exp (- (T * r))))).
  { apply (derivable_pt_lim_ext (mult_real_fct K (fun x => exp (- (T * x))))).
    - intros z. unfold mult_real_fct, Spec.discR. do 3 f_equal. ring.
    - apply derivable_pt_lim_scal, derivable_pt_lim_exp_linear. }
  pose proof (derivable_pt_lim_call_shape
                (fct_cte (S * Spec.discQ q T)) (fun x => K * Spec.discR x T)
                (fun x => Spec.d1 S K T x sigma q) (fun x => Spec.d2 S K T x sigma q)
                r _ _ _ _
                (derivable_pt_lim_const _ r) Hw
                (derivable_pt_lim_d1_r S K T r sigma q)
                (derivable_pt_lim_d2_r S K T r sigma q)) as H.
  unfold fct_cte in H.
  rewrite (balance_algebra _ _ _ _ _ _ _ _
             (density_balance S K T r q HS HK HT sigma Hs)) in H.
  match type of H with
  | derivable_pt_lim _ _ ?v =>
      replace v with (K * T * Spec.discR r T * _Phi (Spec.d2 S K T r sigma q)) in H
  end; [exact H | ].
  unfold Spec.discR. replace (T * r) with (r * T) by ring. ring.
Qed.

Lemma derivable_pt_lim_call_T (S K T r sigma q : R) :
  0 < S -> 0 < K -> 0 < T -> 0 < sigma ->
  derivable_pt_lim (fun t => Spec.price S K t r sigma q Spec.Call) T
    (S * Spec.discQ q T * _phi (Spec.d1 S K T r sigma q) * sigma / (2 * sqrt T)
     + r * K * Spec.discR r T * _Phi (Spec.d2 S K T r sigma q)
     - q * S * Spec.discQ q T * _Phi (Spec.d1 S K T r sigma q)).
Proof.
  intros HS HK HT Hs.
  assert (Hdisc : forall c a, derivable_pt_lim (fun t => c * exp (- (a * t))) T
                                (c * (- a * exp (- (a * T))))).
  { intros c a.
    apply (derivable_pt_lim_scal (fun t => exp (- (a * t)))),
      derivable_pt_lim_exp_linear. }
  pose proof (derivable_pt_lim_call_shape
                (fun t => S * Spec.discQ q t) (fun t => K * Spec.discR r t)
                (fun t => Spec.d1 S K t r sigma q) (fun t => Spec.d2 S K t r sigma q)
                T _ _ _ _ (Hdisc S q) (Hdisc K r)
                (derivable_pt_lim_d1_T S K T r sigma q HT Hs)
                (derivable_pt_lim_d2_T S K T r sigma q HT Hs)) as H.
  rewrite (balance_algebra _ _ _ _ _ _ _ _
             (density_balance S K T r q HS HK HT sigma Hs)) in H.
  match goal with
  | |- derivable_pt_lim _ _ ?v' =>
      match type of H with
      | derivable_pt_lim _ _ ?v => replace v with v' in H
      end
  end; [exact H | ].
  unfold Spec.discQ, Spec.discR, Rdiv. ring.
Qed.

(** The put price has the derivative of the call price less that of
    [S discQ - K discR]. *)
Lemma derivable_pt_lim_put_shape (call put fwd : R -> R) (x c' m' : R) :
  (forall y, put y = call y - fwd y) ->
  derivable_pt_lim call x c' -> derivable_pt_lim fwd x m' ->
  derivable_pt_lim put x (c' - m').
Proof.
  intros Hput Hc Hm.
  apply (derivable_pt_lim_ext (fun y => call y - fwd y)).
  - intros z. symmetry. apply Hput.
  - now apply (derivable_pt_lim_minus call fwd).
Qed.

Lemma derivable_pt_lim_put_S (S K T r sigma q : R) :
  0 < S -> 0 < K -> 0 < T -> 0 < sigma ->
  derivable_pt_lim (fun s => Spec.price s K T r sigma q Spec.Put) S
    (Spec.discQ q T * (_Phi (Spec.d1 S K T r sigma q) - 1)).
Proof.
  intros HS HK HT Hs.
  replace (Spec.discQ q T * (_Phi (Spec.d1 S K T r sigma q) - 1))
    with (Spec.discQ q T * _Phi (Spec.d1 S K T r sigma q) - Spec.discQ q T) by ring.
  apply (derivable_pt_lim_put_shape
           (fun s => Spec.price s K T r sigma q Spec.Call) _
           (fun s => s * Spec.discQ q T - K * Spec.discR r T)).
  - intros y. apply put_from_call.
  - now apply derivable_pt_lim_call_S.
  - apply (derivable_pt_lim_ext
             (fun s => Spec.discQ q T * s + - (K * Spec.discR r T))).
    + intros z. ring.
    + apply derivable_pt_lim_linear.
Qed.

Lemma derivable_pt_lim_put_sigma (S K T r sigma q : R) :
  0 < S -> 0 < K -> 0 < T -> 0 < sigma ->
  derivable_pt_lim (fun s => Spec.price S K T r s q Spec.Put) sigma
    (Spec.vega S K T r sigma q).
Proof.
  intros HS HK HT Hs.
  replace (Spec.vega S K T r sigma q) with (Spec.vega S K T r sigma q - 0) by ring.
  apply (derivable_pt_lim_put_shape
           (fun s => Spec.price S K T r s q Spec.Call) _
           (fct_cte (S * Spec.discQ q T - K * Spec.discR r T))).
  - intros y. apply put_from_call.
  - now apply derivable_pt_lim_call.
  - apply derivable_pt_lim_const.
Qed.

Lemma derivable_pt_lim_put_r (S K T r sigma q : R) :
  0 < S -> 0 < K -> 0 < T -> 0 < sigma ->
  derivable_pt_lim (fun x => Spec.price S K T x sigma q Spec.Put) r
    (- K * T * Spec.discR r T * _Phi (- Spec.d2 S K T r sigma q)).
Proof.
  intros HS HK HT Hs.
  replace (- K * T * Spec.discR r T * _Phi (- Spec.d2 S K T r sigma q))
    with (K * T * Spec.discR r T * _Phi (Spec.d2 S K T r sigma q)
          - (0 - K * (- T * exp (- (T * r))))).
  2:{ rewrite _Phi_opp. unfold Spec.discR. replace (T * r) with (r * T) by ring.
      ring. }
  apply (derivable_pt_lim_put_shape
           (fun x => Spec.price S K T x sigma q Spec.Call) _
           (fun x => S * Spec.discQ q T - K * Spec.discR x T)).
  - intros y. apply put_from_call.
  - now apply derivable_pt_lim_call_r.
  - apply (derivable_pt_lim_minus (fct_cte (S * Spec.discQ q T))
             (fun x => K * Spec.discR x T)).
    + apply derivable_pt_lim_const.
    + apply (derivable_pt_lim_ext (mult_real_fct K (fun x => exp (- (T * x))))).
      * intros z. unfold mult_real_fct, Spec.discR. do 3 f_equal. ring.
      * apply derivable_pt_lim_scal, derivable_pt_lim_exp_linear.
Qed.

Lemma derivable_pt_lim_put_T (S K T r sigma q : R) :
  0 < S -> 0 < K -> 0 < T -> 0 < sigma ->
  derivable_pt_lim (fun t => Spec.price S K t r sigma q Spec.Put) T
    (S * Spec.discQ q T * _phi (Spec.d1 S K T r sigma q) * sigma / (2 * sqrt T)
     - r * K * Spec.discR r T * _Phi (- Spec.d2 S K T r sigma q)
     + q * S * Spec.discQ q T * _Phi (- Spec.d1 S K T r sigma q)).
Proof.
  intros HS HK HT Hs.
  match goal with
  | |- derivable_pt_lim _ _ ?v =>
      replace v
        with (S * Spec.discQ q T * _phi (Spec.d1 S K T r sigma q) * sigma / (2 * sqrt T)
              + r * K * Spec.discR r T * _Phi (Spec.d2 S K T r sigma q)
              - q * S * Spec.discQ q T * _Phi (Spec.d1 S K T r sigma q)
              - (S * (- q * exp (- (q * T))) - K * (- r * exp (- (r * T)))))
  end.
  2:{ rewrite !_Phi_opp. unfold Spec.discQ, Spec.discR. ring. }
  apply (derivable_pt_lim_put_shape
           (fun t => Spec.price S K t r sigma q Spec.Call) _
           (fun t => S * Spec.discQ q t - K * Spec.discR r t)).
  - intros y. apply put_from_call.
  - now apply derivable_pt_lim_call_T.
  - apply (derivable_pt_lim_minus (fun t => S * Spec.discQ q t)
             (fun t => K * Spec.discR r t)).
    + apply (derivable_pt_lim_scal (fun t => exp (- (q * t)))),
        derivable_pt_lim_exp_linear.
    + apply (derivable_pt_lim_scal (fun t => exp (- (r * t)))),
        derivable_pt_lim_exp_linear.
Qed.

(** From the closed form to the code's price, argument by argument. *)
Lemma price_value_in_S (S K T r sigma q l : R) (o : Spec.OptionType) :
  0 < S -> 0 < K -> 0 < T -> 0 < sigma ->
  derivable_pt_lim (fun s => Spec.price s K T r sigma q o) S l ->
  derivable_pt_lim (fun s => price_value s K T r sigma q (Spec.option_string o)) S l.
Proof.
  intros HS HK HT Hs.
  apply (derivable_pt_lim_locally_ext _ _ S (S / 2) (S + 1)); [lra | ].
  intros z Hz. symmetry. apply price_value_valid; lra.
Qed.

Lemma price_value_in_sigma (S K T r sigma q l : R) (o : Spec.OptionType) :
  0 < S -> 0 < K -> 0 < T -> 0 < sigma ->
  derivable_pt_lim (fun s => Spec.price S K T r s q o) sigma l ->
  derivable_pt_lim (fun s => price_value S K T r s q (Spec.option_string o)) sigma l.
Proof.
  intros HS HK HT Hs.
  apply (derivable_pt_lim_locally_ext _ _ sigma (sigma / 2) (sigma + 1)); [lra | ].
  intros z Hz. symmetry. apply price_value_valid; lra.
Qed.

Lemma price_value_in_T (S K T r sigma q l : R) (o : Spec.OptionType) :
  0 < S -> 0 < K -> 0 < T -> 0 < sigma ->
  derivable_pt_lim (fun t => Spec.price S K t r sigma q o) T l ->
  derivable_pt_lim (fun t => price_value S K t r sigma q (Spec.option_string o)) T l.
Proof.
  intros HS HK HT Hs.
  apply (derivable_pt_lim_locally_ext _ _ T (T / 2) (T + 1)); [lra | ].
  intros z Hz. symmetry. apply price_value_valid; lra.
Qed.

Lemma price_value_in_r (S K T r sigma q l : R) (o : Spec.OptionType) :
  0 < S -> 0 < K -> 0 < T -> 0 < sigma ->
  derivable_pt_lim (fun x => Spec.price S K T x sigma q o) r l ->
  derivable_pt_lim (fun x => price_value S K T x sigma q (Spec.option_string o)) r l.
Proof.
  intros HS HK HT Hs.
  apply derivable_pt_lim_ext.
  intros z. symmetry. now apply price_value_valid.
Qed.

Lemma delta_value_valid (S K T r sigma q : R) (o : Spec.OptionType) :
  0 < S -> 0 < K -> 0 < T -> 0 < sigma ->
  delta_value S K T r sigma q (Spec.option_string o)
  = match o with
    | Spec.Call => Spec.discQ q T * _Phi (Spec.d1 S K T r sigma q)
    | Spec.Put => Spec.discQ q T * (_Phi (Spec.d1 S K T r sigma q) - 1)
    end.
Proof.
  intros HS HK HT Hs. unfold delta_value. destruct o; simpl Spec.option_string.
  - now rewrite bs_greeks_call.
  - rewrite bs_greeks_put by assumption. simpl. f_equal. lra.
Qed.

End Sensitivities.

(** X1: for valid inputs and either option type, the [delta] that
    [bs_greeks] returns is the derivative of the price of [bs_price] in the
    spot S. *)
Theorem delta_is_spot_sensitivity (S K T r sigma q : R) (o : Spec.OptionType) :
  0 < S -> 0 < K -> 0 < T -> 0 < sigma ->
  exists g,
    bs_greeks S K T r sigma q (Spec.option_string o) = Ok g
    /\ derivable_pt_lim
         (fun s => price_value s K T r sigma q (Spec.option_string o)) S (delta g).
Proof.
  intros HS HK HT Hs. destruct o; eexists.
  - split; [now apply bs_greeks_call | ]. simpl delta.
    apply (price_value_in_S S K T r sigma q _ Spec.Call); try assumption.
    now apply derivable_pt_lim_call_S.
  - split; [now apply bs_greeks_put | ]. simpl delta.
    apply (price_value_in_S S K T r sigma q _ Spec.Put); try assumption.
    replace 1.0 with 1 by lra.
    now apply derivable_pt_lim_put_S.
Qed.

Lemma delta_is_spot_sensitivity_witness :
  (0 < 100 /\ 0 < 1 /\ 0 < 0.2)
  /\ exists g,
       bs_greeks 100 100 1 0.05 0.2 0 "put" = Ok g
       /\ derivable_pt_lim (fun s => price_value s 100 1 0.05 0.2 0 "put") 100 (delta g).
Proof.
  split; [lra | ].
  apply (delta_is_spot_sensitivity 100 100 1 0.05 0.2 0 Spec.Put); lra.
Defined.

(** X2: for valid inputs and either option type, the [gamma] that
    [bs_greeks] returns is the derivative of its [delta] in the spot S. *)
Theorem gamma_is_delta_sensitivity (S K T r sigma q : R) (o : Spec.OptionType) :
  0 < S -> 0 < K -> 0 < T -> 0 < sigma ->
  exists g,
    bs_greeks S K T r sigma q (Spec.option_string o) = Ok g
    /\ derivable_pt_lim
         (fun s => delta_value s K T r sigma q (Spec.option_string o)) S (gamma g).
Proof.
  intros HS HK HT Hs.
  pose proof (sqrt_lt_R0 T HT) as Hsq.
  assert (Hd : derivable_pt_lim
                 (fun s => Spec.discQ q T * _Phi (Spec.d1 s K T r sigma q)) S
                 (Spec.discQ q T * _phi (Spec.d1 S K T r sigma q)
                  / (S * sigma * sqrt T))).
  { replace (Spec.discQ q T * _phi (Spec.d1 S K T r sigma q) / (S * sigma * sqrt T))
      with (Spec.discQ q T
            * (_phi (Spec.d1 S K T r sigma q) * (/ S / (sigma * sqrt T))))
      by (field; repeat split; lra).
    apply (derivable_pt_lim_scal (fun s => _Phi (Spec.d1 s K T r sigma q))).
    apply (derivable_pt_lim_comp (fun s => Spec.d1 s K T r sigma q) _Phi).
    - now apply derivable_pt_lim_d1_S.
    - apply derivable_pt_lim_Phi. }
  destruct o; eexists.
  - split; [now apply bs_greeks_call | ]. simpl gamma.
    apply (derivable_pt_lim_locally_ext
             (fun s => Spec.discQ q T * _Phi (Spec.d1 s K T r sigma q)) _ S
             (S / 2) (S + 1)); [lra | | exact Hd].
    intros z Hz. symmetry.
    apply (delta_value_valid z K T r sigma q Spec.Call); lra.
  - split; [now apply bs_greeks_put | ]. simpl gamma.
    apply (derivable_pt_lim_locally_ext
             (fun s => Spec.discQ q T * _Phi (Spec.d1 s K T r sigma q)
                       - Spec.discQ q T) _ S
             (S / 2) (S + 1)); [lra | | ].
    + intros z Hz.
      rewrite (delta_value_valid z K T r sigma q Spec.Put) by lra. ring.
    + match goal with
      | |- derivable_pt_lim _ _ ?v => replace v with (v - 0) by ring
      end.
      apply (derivable_pt_lim_minus
               (fun s => Spec.discQ q T * _Phi (Spec.d1 s K T r sigma q))
               (fct_cte (Spec.discQ q T))); [exact Hd | ].
      apply derivable_pt_lim_const.
Qed.

Lemma gamma_is_delta_sensitivity_witness :
  (0 < 100 /\ 0 < 1 /\ 0 < 0.2)
  /\ exists g,
       bs_greeks 100 100 1 0.05 0.2 0 "call" = Ok g
       /\ derivable_pt_lim (fun s => delta_value s 100 1 0.05 0.2 0 "call") 100 (gamma g).
Proof.
  split; [lra | ].
  apply (gamma_is_delta_sensitivity 100 100 1 0.05 0.2 0 Spec.Call); lra.
Defined.

(** X3: for valid inputs and either option type, the [vega] that
    [bs_greeks] returns is the derivative of the price in the volatility
    sigma, per unit of sigma (over exact reals). *)
Theorem vega_is_volatility_sensitivity (S K T r sigma q : R) (o : Spec.OptionType) :
  0 < S -> 0 < K -> 0 < T -> 0 < sigma ->
  exists g,
    bs_greeks S K T r sigma q (Spec.option_string o) = Ok g
    /\ derivable_pt_lim
         (fun s => price_value S K T r s q (Spec.option_string o)) sigma (vega g).
Proof.
  intros HS HK HT Hs.
  destruct o; eexists.
  - split; [now apply bs_greeks_call | ]. simpl vega.
    apply (price_value_in_sigma S K T r sigma q _ Spec.Call); try assumption.
    now apply derivable_pt_lim_call.
  - split; [now apply bs_greeks_put | ]. simpl vega.
    apply (price_value_in_sigma S K T r sigma q _ Spec.Put); try assumption.
    now apply derivable_pt_lim_put_sigma.
Qed.

Lemma vega_is_volatility_sensitivity_witness :
  (0 < 100 /\ 0 < 1 /\ 0 < 0.2)
  /\ exists g,
       bs_greeks 100 100 1 0.05 0.2 0 "call" = Ok g
       /\ derivable_pt_lim (fun s => price_value 100 100 1 0.05 s 0 "call") 0.2 (vega g).
Proof.
  split; [lra | ].
  apply (vega_is_volatility_sensitivity 100 100 1 0.05 0.2 0 Spec.Call); lra.
Defined.

(** X4: for valid inputs and either option type, the [theta] that
    [bs_greeks] returns is minus the derivative of the price in the time to
    expiry T, per year: the rate at which the price changes as expiry
    comes closer. *)
Theorem theta_is_time_decay (S K T r sigma q : R) (o : Spec.OptionType) :
  0 < S -> 0 < K -> 0 < T -> 0 < sigma ->
  exists g,
    bs_greeks S K T r sigma q (Spec.option_string o) = Ok g
    /\ derivable_pt_lim
         (fun t => price_value S K t r sigma q (Spec.option_string o)) T (- theta g).
Proof.
  intros HS HK HT Hs. destruct o; eexists.
  - split; [now apply bs_greeks_call | ]. simpl theta.
    apply (price_value_in_T S K T r sigma q _ Spec.Call); try assumption.
    match goal with
    | |- derivable_pt_lim _ _ ?v =>
        replace v
          with (S * Spec.discQ q T * _phi (Spec.d1 S K T r sigma q) * sigma
                / (2 * sqrt T)
                + r * K * Spec.discR r T * _Phi (Spec.d2 S K T r sigma q)
                - q * S * Spec.discQ q T * _Phi (Spec.d1 S K T r sigma q))
          by (unfold Rdiv; ring)
    end.
    now apply derivable_pt_lim_call_T.
  - split; [now apply bs_greeks_put | ]. simpl theta.
    apply (price_value_in_T S K T r sigma q _ Spec.Put); try assumption.
    match goal with
    | |- derivable_pt_lim _ _ ?v =>
        replace v
          with (S * Spec.discQ q T * _phi (Spec.d1 S K T r sigma q) * sigma
                / (2 * sqrt T)
                - r * K * Spec.discR r T * _Phi (- Spec.d2 S K T r sigma q)
                + q * S * Spec.discQ q T * _Phi (- Spec.d1 S K T r sigma q))
          by (unfold Rdiv; ring)
    end.
    now apply derivable_pt_lim_put_T.
Qed.

Lemma theta_is_time_decay_witness :
  (0 < 100 /\ 0 < 1 /\ 0 < 0.2)
  /\ exists g,
       bs_greeks 100 100 1 0.05 0.2 0 "call" = Ok g
       /\ derivable_pt_lim (fun t => price_value 100 100 t 0.05 0.2 0 "call") 1
            (- theta g).
Proof.
  split; [lra | ].
  apply (theta_is_time_decay 100 100 1 0.05 0.2 0 Spec.Call); lra.
Defined.

(** X5: for valid inputs and either option type, the [rho] that
    [bs_greeks] returns is the derivative of the price in the rate r. *)
Theorem rho_is_rate_sensitivity (S K T r sigma q : R) (o : Spec.OptionType) :
  0 < S -> 0 < K -> 0 < T -> 0 < sigma ->
  exists g,
    bs_greeks S K T r sigma q (Spec.option_string o) = Ok g
    /\ derivable_pt_lim
         (fun x => price_value S K T x sigma q (Spec.option_string o)) r (rho g).
Proof.
  intros HS HK HT Hs. destruct o; eexists.
  - split; [now apply bs_greeks_call | ]. simpl rho.
    apply (price_value_in_r S K T r sigma q _ Spec.Call); try assumption.
    now apply derivable_pt_lim_call_r.
  - split; [now apply bs_greeks_put | ]. simpl rho.
    apply (price_value_in_r S K T r sigma q _ Spec.Put); try assumption.
    now apply derivable_pt_lim_put_r.
Qed.

Lemma rho_is_rate_sensitivity_witness :
  (0 < 100 /\ 0 < 1 /\ 0 < 0.2)
  /\ exists g,
       bs_greeks 100 100 1 0.05 0.2 0 "put" = Ok g
       /\ derivable_pt_lim (fun x => price_value 100 100 1 x 0.2 0 "put") 0.05 (rho g).
Proof.
  split; [lra | ].
  apply (rho_is_rate_sensitivity 100 100 1 0.05 0.2 0 Spec.Put); lra.
Defined.

(** X6: for valid inputs and either option type, the price and the Greeks
    that the code returns satisfy the Black-Scholes equation
    theta + sigma^2 S^2 gamma / 2 + (r - q) S delta - r price = 0. *)
Theorem greeks_satisfy_black_scholes_equation
        (S K T r sigma q : R) (o : Spec.OptionType) :
  0 < S -> 0 < K -> 0 < T -> 0 < sigma ->
  exists p g,
    bs_price S K T r sigma q (Spec.option_string o) = Ok p
    /\ bs_greeks S K T r sigma q (Spec.option_string o) = Ok g
    /\ theta g + sigma ^ 2 * S ^ 2 * gamma g / 2 + (r - q) * S * delta g - r * p = 0.
Proof.
  intros HS HK HT Hs. pose proof (sqrt_lt_R0 T HT) as Hsq.
  exists (Spec.price S K T r sigma q o).
  destruct o; eexists;
    (split; [now apply bs_price_valid | ]);
    (split; [first [now apply bs_greeks_call | now apply bs_greeks_put] | ]);
    simpl; replace 1.0 with 1 by lra; rewrite ?_Phi_opp; field; lra.
Qed.

Lemma greeks_satisfy_black_scholes_equation_witness :
  (0 < 100 /\ 0 < 1 /\ 0 < 0.2)
  /\ exists p g,
       bs_price 100 100 1 0.05 0.2 0 "call" = Ok p
       /\ bs_greeks 100 100 1 0.05 0.2 0 "call" = Ok g
       /\ theta g + 0.2 ^ 2 * 100 ^ 2 * gamma g / 2 + (0.05 - 0) * 100 * delta g
          - 0.05 * p = 0.
Proof.
  split; [lra | ].
  apply (greeks_satisfy_black_scholes_equation 100 100 1 0.05 0.2 0 Spec.Call); lra.
Defined.

(** X7: for valid inputs, the Greeks of the call and of the put differ by
    the Greeks of the forward S exp(-qT) - K exp(-rT): gamma and vega are
    the same, the deltas differ by exp(-qT), the rhos by K T exp(-rT), and
    the thetas by q S exp(-qT) - r K exp(-rT). *)
Theorem greeks_call_put_parity (S K T r sigma q : R) :
  0 < S -> 0 < K -> 0 < T -> 0 < sigma ->
  exists c p,
    bs_greeks S K T r sigma q "call" = Ok c
    /\ bs_greeks S K T r sigma q "put" = Ok p
    /\ gamma c = gamma p
    /\ vega c = vega p
    /\ delta c - delta p = exp (- (q * T))
    /\ rho c - rho p = K * T * exp (- (r * T))
    /\ theta c - theta p = q * S * exp (- (q * T)) - r * K * exp (- (r * T)).
Proof.
  intros HS HK HT Hs.
  eexists. eexists.
  split; [now apply bs_greeks_call | ].
  split; [now apply bs_greeks_put | ].
  simpl. unfold Spec.discQ, Spec.discR. rewrite !_Phi_opp.
  replace 1.0 with 1 by lra.
  repeat split; ring.
Qed.

Lemma greeks_call_put_parity_witness :
  (0 < 100 /\ 0 < 1 /\ 0 < 0.2)
  /\ exists c p,
       bs_greeks 100 100 1 0.05 0.2 0 "call" = Ok c
       /\ bs_greeks 100 100 1 0.05 0.2 0 "put" = Ok p
       /\ delta c - delta p = exp (- (0 * 1)).
Proof.
  split; [lra | ].
  destruct (greeks_call_put_parity 100 100 1 0.05 0.2 0)
    as [c [p [Hc [Hp [_ [_ [Hd _]]]]]]]; try lra.
  exists c, p. repeat split; assumption.
Defined.

(** ** The normal density and distribution *)

(** X8: the density [_phi] is the derivative of the distribution [_Phi] at
    every point (over exact reals), and it is even. *)
Theorem density_is_derivative_of_distribution (x : R) :
  derivable_pt_lim _Phi x (_phi x) /\ _phi (- x) = _phi x.
Proof.
  split; [apply derivable_pt_lim_Phi | ].
  unfold _phi. do 2 f_equal. ring.
Qed.

(** X9: over exact reals, the function that [_Phi] computes is strictly
    increasing, takes the value 1/2 at 0, and is symmetric:
    Phi(-x) = 1 - Phi(x). *)
Theorem distribution_increasing_symmetric :
  (forall x y, x < y -> _Phi x < _Phi y)
  /\ _Phi 0 = 0.5
  /\ (forall x, _Phi (- x) = 1 - _Phi x).
Proof.
  split; [ | split].
  - intros x y Hxy.
    destruct (MVT_cor2 _Phi _phi x y Hxy) as [c [Hc _]].
    + intros; apply derivable_pt_lim_Phi.
    + pose proof (_phi_pos c).
      assert (0 < _phi c * (y - x)) by (apply Rmult_lt_0_compat; lra).
      lra.
  - unfold _Phi. replace (0 / sqrt 2.0) with 0 by (unfold Rdiv; ring).
    rewrite erf_0. lra.
  - apply _Phi_opp.
Qed.

(** ** The solver: failures, accuracy and evaluation points *)

Section SolverFacts.

Variables target S K T r q : R.
Variable option : string.
Variable tol : R.

Lemma first_sigma_pos (seed : R) (max_iter : Z) : 0 < first_sigma seed max_iter.
Proof.
  unfold first_sigma. destruct (0 <? max_iter)%Z; [ | lra].
  pose proof (py_max_floor seed). lra.
Qed.

Lemma implied_vol_first_call_raises (seed : R) (max_iter : Z) (e : exn) :
  bs_price S K T r (first_sigma seed max_iter) q option = Raise e ->
  implied_vol target S K T r q option seed tol max_iter
  = (Raise e, [PriceCall (first_sigma seed max_iter)]).
Proof.
  unfold first_sigma, implied_vol. intros He.
  destruct (0 <? max_iter)%Z eqn:Hpos.
  - apply Z.ltb_lt in Hpos.
    destruct (Z.to_nat max_iter) as [ | n] eqn:Hn; [lia | ].
    rewrite newton_loop_step. unfold price_call. rewrite He. reflexivity.
  - apply Z.ltb_ge in Hpos.
    replace (Z.to_nat max_iter) with 0%nat by lia.
    change 200%nat with (Datatypes.S 199). simpl newton_loop.
    unfold ret at 1, bind at 1. rewrite bisection_loop_step.
    unfold price_call. rewrite He. reflexivity.
Qed.

Lemma Forall_calls_bind {A B : Type} (P : call -> Prop) (m : M A) (k : A -> M B) :
  Forall P (calls m) ->
  (forall a, outcome m = Ok a -> Forall P (calls (k a))) ->
  Forall P (calls (bind m k)).
Proof.
  intros Hm Hk. destruct m as [[a | e] log].
  - rewrite (calls_bind_ok (Ok a, log) k a eq_refl).
    apply Forall_app. split; [exact Hm | now apply Hk].
  - exact Hm.
Qed.

Lemma newton_calls_range (B : R) (n : nat) (sigma : R) :
  5 <= B -> 1e-6 <= sigma <= B ->
  Forall (fun c => 1e-6 <= sigma_of c <= B)
    (calls (newton_loop target S K T r q option tol n sigma)).
Proof.
  intros HB. revert sigma. induction n as [ | n IH]; intros sigma Hs.
  - constructor.
  - rewrite newton_loop_step.
    apply Forall_calls_bind; [apply Forall_cons; [simpl; lra | apply Forall_nil] | ].
    intros p _. destruct (Rlt_dec (Rabs (p - target)) tol); [constructor | ].
    apply Forall_calls_bind; [apply Forall_cons; [simpl; lra | apply Forall_nil] | ].
    intros g _. destruct (Rlt_dec (vega g) 1e-12); [constructor | ].
    apply IH. rewrite py_clamp.
    pose proof (clamp_range (sigma - (p - target) / vega g)). lra.
Qed.

Lemma bisection_calls_range (n : nat) (lo hi : R) :
  lo <= hi ->
  Forall (fun c => lo <= sigma_of c <= hi)
    (calls (bisection_loop target S K T r q option tol n lo hi)).
Proof.
  revert lo hi. induction n as [ | n IH]; intros lo hi Hle.
  - constructor.
  - rewrite bisection_loop_step.
    apply Forall_calls_bind; [apply Forall_cons; [simpl; lra | apply Forall_nil] | ].
    intros p _. destruct (Rlt_dec (Rabs (p - target)) tol); [constructor | ].
    destruct (Rgt_dec p target).
    + eapply Forall_impl; [ | apply IH; lra]. simpl. intros c Hc. lra.
    + eapply Forall_impl; [ | apply IH; lra]. simpl. intros c Hc. lra.
Qed.

End SolverFacts.

(** X10: for every input, valid or not, every evaluation of [bs_price] and
    [bs_greeks] that the solver makes is at a volatility between 1e-6 and
    max(5.0, seed): the solver never prices at a volatility that is zero or
    negative. *)
Theorem solver_evaluation_points
        (target S K T r q : R) (option : string) (seed tol : R) (max_iter : Z)
        (c : call) :
  In c (calls (implied_vol target S K T r q option seed tol max_iter)) ->
  1e-6 <= sigma_of c <= Rmax 5.0 seed.
Proof.
  revert c. apply Forall_forall. unfold implied_vol.
  assert (Hseed : 1e-6 <= py_max 1e-6 seed <= Rmax 5.0 seed).
  { unfold py_max, Rmax.
    destruct (Rgt_dec seed 1e-6), (Rle_dec 5.0 seed); lra. }
  assert (HB : 5 <= Rmax 5.0 seed).
  { unfold Rmax. destruct (Rle_dec 5.0 seed); lra. }
  apply Forall_calls_bind.
  - now apply newton_calls_range.
  - intros ex _.
    assert (Hb : Forall (fun c => 1e-6 <= sigma_of c <= Rmax 5.0 seed)
                   (calls (bisection_loop target S K T r q option tol 200 1e-6 5.0))).
    { eapply Forall_impl; [ | apply bisection_calls_range; lra].
      simpl. intros c Hc. lra. }
    destruct ex; [constructor | exact Hb | exact Hb].
Qed.

Lemma solver_evaluation_points_witness :
  In (PriceCall (py_max 1e-6 0.2))
     (calls (implied_vol 10 100 100 0 0.05 0 "call" 0.2 1e-8 100))
  /\ 1e-6 <= py_max 1e-6 0.2 <= Rmax 5.0 0.2.
Proof.
  assert (Hin : In (PriceCall (py_max 1e-6 0.2))
                  (calls (implied_vol 10 100 100 0 0.05 0 "call" 0.2 1e-8 100))).
  { rewrite (implied_vol_first_call_raises 10 100 100 0 0.05 0 "call" 1e-8 0.2 100
               (ValueError gate_msg)).
    - left. reflexivity.
    - unfold bs_price. rewrite _d1_d2_invalid by lra. reflexivity. }
  split; [exact Hin | ].
  exact (solver_evaluation_points 10 100 100 0 0.05 0 "call" 0.2 1e-8 100 _ Hin).
Defined.

Section SolverAccuracy.

Variables target S K T r q : R.
Variable option : string.
Variable tol : R.

(** A volatility returned by the Newton loop is one that the loop priced
    within the tolerance: the floor of the [return] does not move it. *)
Lemma newton_return_reprices (n : nat) (sigma v : R) :
  1e-6 <= sigma ->
  outcome (newton_loop target S K T r q option tol n sigma) = Ok (Return v) ->
  exists p, bs_price S K T r v q option = Ok p /\ Rabs (p - target) < tol.
Proof.
  revert sigma. induction n as [ | n IH]; intros sigma Hs Hv; [discriminate | ].
  rewrite newton_loop_step in Hv.
  destruct (bs_price S K T r sigma q option) as [p | e] eqn:Hp.
  2:{ bind_call_in Hv Hp. discriminate. }
  bind_call_in Hv Hp.
  destruct (Rlt_dec (Rabs (p - target)) tol) as [Hc | Hc].
  { unfold ret, outcome in Hv. simpl in Hv. injection Hv as <-.
    replace (py_max 1e-12 sigma) with sigma.
    - exists p. split; [exact Hp | exact Hc].
    - unfold py_max. destruct (Rgt_dec sigma 1e-12); lra. }
  destruct (bs_greeks S K T r sigma q option) as [g | e] eqn:Hg.
  2:{ bind_call_in Hv Hg. discriminate. }
  bind_call_in Hv Hg.
  destruct (Rlt_dec (vega g) 1e-12); [discriminate | ].
  apply IH in Hv; [exact Hv | ].
  rewrite py_clamp. apply clamp_range.
Qed.

(** A volatility returned by the bisection loop is a midpoint priced within
    the tolerance, unless the loop made all its evaluations. *)
Lemma bisection_reprices_or_exhausts (n : nat) (lo hi v : R) :
  outcome (bisection_loop target S K T r q option tol n lo hi) = Ok v ->
  (exists p, bs_price S K T r v q option = Ok p /\ Rabs (p - target) < tol)
  \/ price_evaluations (bisection_loop target S K T r q option tol n lo hi) = n.
Proof.
  revert lo hi. induction n as [ | n IH]; intros lo hi Hv.
  - right. reflexivity.
  - rewrite bisection_loop_step in Hv. rewrite bisection_loop_step.
    destruct (bs_price S K T r (0.5 * (lo + hi)) q option) as [p | e] eqn:Hp.
    2:{ bind_call_in Hv Hp. discriminate. }
    assert (Hcall : outcome (price_call S K T r q option (0.5 * (lo + hi))) = Ok p)
      by exact Hp.
    bind_call_in Hv Hp.
    match goal with
    | |- context [bind ?m ?k] =>
        unfold price_evaluations; rewrite (calls_bind_ok m k p Hcall)
    end.
    destruct (Rlt_dec (Rabs (p - target)) tol) as [Hhit | Hhit].
    { left. unfold ret, outcome in Hv. simpl in Hv. injection Hv as <-.
      exists p. split; [exact Hp | exact Hhit]. }
    rewrite filter_app, length_app.
    change (List.length (filter is_price_call
                           (calls (price_call S K T r q option (0.5 * (lo + hi))))))
      with 1%nat.
    destruct (Rgt_dec p target).
    + destruct (IH _ _ Hv) as [H | H]; [now left | right].
      unfold price_evaluations in H. rewrite H. reflexivity.
    + destruct (IH _ _ Hv) as [H | H]; [now left | right].
      unfold price_evaluations in H. rewrite H. reflexivity.
Qed.

End SolverAccuracy.

(** X11: a volatility that the solver returns is one at which [bs_price]
    prices within the tolerance of the target (a Newton return or a
    bisection hit), unless it is the value of a bisection that made all its
    200 pricing evaluations, for which nothing is promised. *)
Theorem solver_result_reprices_or_exhausted
        (target S K T r q : R) (option : string) (seed tol : R) (max_iter : Z)
        (v : R) :
  outcome (implied_vol target S K T r q option seed tol max_iter) = Ok v ->
  (exists p, bs_price S K T r v q option = Ok p /\ Rabs (p - target) < tol)
  \/ (outcome (bisection_loop target S K T r q option tol 200 1e-6 5.0) = Ok v
      /\ price_evaluations (bisection_loop target S K T r q option tol 200 1e-6 5.0)
         = 200%nat).
Proof.
  intros Hv. unfold implied_vol in Hv.
  destruct (outcome (newton_loop target S K T r q option tol
                       (Z.to_nat max_iter) (py_max 1e-6 seed)))
    as [ex | e] eqn:Hn.
  2:{ bind_call_in Hv Hn. discriminate. }
  bind_call_in Hv Hn.
  destruct ex as [w | | ].
  - left. unfold ret, outcome in Hv. cbn [fst] in Hv. injection Hv as <-.
    exact (newton_return_reprices target S K T r q option tol _ _ _
             (py_max_floor seed) Hn).
  - destruct (bisection_reprices_or_exhausts target S K T r q option tol
                200 1e-6 5.0 v Hv) as [H | H]; [now left | right; now split].
  - destruct (bisection_reprices_or_exhausts target S K T r q option tol
                200 1e-6 5.0 v Hv) as [H | H]; [now left | right; now split].
Qed.

Lemma solver_result_reprices_or_exhausted_witness :
  exists target,
    outcome (implied_vol target 100 100 1 0.05 0 "call" 10 1e-8 100) = Ok 10
    /\ ((exists p, bs_price 100 100 1 0.05 10 0 "call" = Ok p
                    /\ Rabs (p - target) < 1e-8)
        \/ (outcome (bisection_loop target 100 100 1 0.05 0 "call" 1e-8 200 1e-6 5.0)
            = Ok 10
            /\ price_evaluations
                 (bisection_loop target 100 100 1 0.05 0 "call" 1e-8 200 1e-6 5.0)
               = 200%nat)).
Proof.
  destruct seed_returned_at_once as [target [_ Hv]].
  exists target. split; [exact Hv | ].
  exact (solver_result_reprices_or_exhausted target 100 100 1 0.05 0 "call"
           10 1e-8 100 10 Hv).
Defined.


(** X13: when S, K or T is zero or negative, the solver raises the
    [ValueError] of the gate at its first pricing evaluation, and when the
    option is neither "call" nor "put" it raises at that evaluation too; in
    both cases for every budget (also max_iter <= 0, where that evaluation
    is the first bisection midpoint), and nothing else is evaluated. *)
Theorem solver_fails_at_first_evaluation
        (target S K T r q : R) (option : string) (seed tol : R) (max_iter : Z) :
  (S <= 0 \/ K <= 0 \/ T <= 0 ->
   implied_vol target S K T r q option seed tol max_iter
   = (Raise (ValueError gate_msg), [PriceCall (first_sigma seed max_iter)]))
  /\ (option <> "call"%string -> option <> "put"%string ->
      exists e,
        implied_vol target S K T r q option seed tol max_iter
        = (Raise e, [PriceCall (first_sigma seed max_iter)])).
Proof.
  split.
  - intros Hinv. apply implied_vol_first_call_raises. unfold bs_price.
    rewrite _d1_d2_invalid by lra. reflexivity.
  - intros Hc Hp.
    destruct (bs_price S K T r (first_sigma seed max_iter) q option)
      as [p | e] eqn:Hprice.
    + exfalso.
      destruct (bs_price_checks_option _ _ _ _ _ _ _ _ Hprice); contradiction.
    + exists e. now apply implied_vol_first_call_raises.
Qed.

(** X14: when the price at the floored seed max(1e-6, seed) is within the
    tolerance of the target and max_iter >= 1, the solver returns the
    floored seed itself after that single pricing evaluation: the floor
    max(1e-12, sigma) of the return statement does not change it. *)
Theorem seed_within_tolerance_returned
        (target S K T r q : R) (option : string) (seed tol : R) (max_iter : Z)
        (p : R) :
  (1 <= max_iter)%Z ->
  bs_price S K T r (py_max 1e-6 seed) q option = Ok p ->
  Rabs (p - target) < tol ->
  implied_vol target S K T r q option seed tol max_iter
  = (Ok (py_max 1e-6 seed), [PriceCall (py_max 1e-6 seed)]).
Proof.
  intros Hiter Hp Htol. unfold implied_vol.
  destruct (Z.to_nat max_iter) as [ | n] eqn:Hn; [lia | ].
  assert (Hfloor : py_max 1e-12 (py_max 1e-6 seed) = py_max 1e-6 seed).
  { pose proof (py_max_floor seed).
    unfold py_max at 1. destruct (Rgt_dec (py_max 1e-6 seed) 1e-12); lra. }
  assert (Hnewton :
            newton_loop target S K T r q option tol (Datatypes.S n) (py_max 1e-6 seed)
            = (Ok (Return (py_max 1e-6 seed)), [PriceCall (py_max 1e-6 seed)])).
  { rewrite newton_loop_step. unfold price_call, bind. rewrite Hp.
    destruct (Rlt_dec (Rabs (p - target)) tol); [ | contradiction].
    unfold ret. rewrite Hfloor. reflexivity. }
  rewrite Hnewton. reflexivity.
Qed.

Lemma seed_within_tolerance_returned_witness :
  exists p,
    ((1 <= 100)%Z
     /\ bs_price 100 100 1 0.05 (py_max 1e-6 0.2) 0 "call" = Ok p
     /\ Rabs (p - p) < 1e-8)
    /\ implied_vol p 100 100 1 0.05 0 "call" 0.2 1e-8 100
       = (Ok (py_max 1e-6 0.2), [PriceCall (py_max 1e-6 0.2)]).
Proof.
  assert (Hpos : 0 < py_max 1e-6 0.2) by (pose proof (py_max_floor 0.2); lra).
  pose proof (bs_price_valid 100 100 1 0.05 (py_max 1e-6 0.2) 0 Spec.Call
                ltac:(lra) ltac:(lra) ltac:(lra) Hpos) as Hp.
  eexists.
  assert (Htol : Rabs (Spec.price 100 100 1 0.05 (py_max 1e-6 0.2) 0 Spec.Call
                       - Spec.price 100 100 1 0.05 (py_max 1e-6 0.2) 0 Spec.Call)
                 < 1e-8).
  { unfold Rminus. rewrite Rplus_opp_r, Rabs_R0. lra. }
  split; [split; [lia | split; [exact Hp | exact Htol]] | ].
  apply (seed_within_tolerance_returned _ 100 100 1 0.05 0 "call" 0.2 1e-8 100 _
           ltac:(lia) Hp Htol).
Defined.

(** X15: with max_iter <= 0 the Newton loop does not run: the solver is the
    bisection on [1e-6, 5.0] alone, with the same result and the same
    evaluations, whatever the seed; the Greeks are never evaluated. *)
Theorem solver_without_newton_budget
        (target S K T r q : R) (option : string) (seed tol : R) (max_iter : Z) :
  (max_iter <= 0)%Z ->
  implied_vol target S K T r q option seed tol max_iter
  = bisection_loop target S K T r q option tol 200 1e-6 5.0
  /\ greeks_evaluations (implied_vol target S K T r q option seed tol max_iter)
     = 0%nat.
Proof.
  intros Hiter.
  assert (Heq : implied_vol target S K T r q option seed tol max_iter
                = bisection_loop target S K T r q option tol 200 1e-6 5.0).
  { unfold implied_vol. replace (Z.to_nat max_iter) with 0%nat by lia.
    simpl newton_loop. unfold ret at 1, bind at 1.
    now destruct (bisection_loop target S K T r q option tol 200 1e-6 5.0). }
  split; [exact Heq | ].
  rewrite Heq. apply bisection_greeks_evaluations.
Qed.

Lemma solver_without_newton_budget_witness :
  (0 <= 0)%Z
  /\ implied_vol 10 100 100 1 0.05 0 "call" 0.2 1e-8 0
     = bisection_loop 10 100 100 1 0.05 0 "call" 1e-8 200 1e-6 5.0.
Proof.
  split; [lia | ].
  apply (solver_without_newton_budget 10 100 100 1 0.05 0 "call" 0.2 1e-8 0).
  lia.
Defined.

(** ** The console front end *)

Section ConsoleFacts.

Variables strip lower : string -> string.
Variable float : string -> result R.
Variable format6 : R -> string.

Lemma io_bind_inv {A B : Type} (m : IO A) (k : A -> IO B) (stdin : list string)
      (res : io_result B) (rest : list string) (out : list output) :
  io_bind m k stdin = (res, rest, out) ->
  (exists a r1 o1 o2,
      m stdin = (IoOk a, r1, o1) /\ k a r1 = (res, rest, o2) /\ out = o1 ++ o2)
  \/ (exists e, m stdin = (IoRaise e, rest, out) /\ res = IoRaise e).
Proof.
  unfold io_bind. destruct (m stdin) as [[[a | e] r1] o1].
  - destruct (k a r1) as [[rb r2] o2] eqn:Hk. intros H. injection H as <- <- <-.
    left. now exists a, r1, o1, o2.
  - intros H. injection H as <- <- <-. right. now exists e.
Qed.

Section PromptingFacts.

Variables A D : Type.
Variable cast : string -> result A.
Variable cast_default : D -> result A.
Variable str : D -> string.

Lemma _f_characterised (prompt : string) (default : option D) (stdin : list string)
      (res : io_result A) (rest : list string) (out : list output) :
  _f strip A D cast cast_default str prompt default stdin = (res, rest, out) ->
  exists rejected,
    Forall (turned_down strip A D cast default) rejected
    /\ out = flat_map (fun _ => [Prompt (prompt_text D str prompt default);
                                 Line "Invalid. Try again."]) rejected
             ++ [Prompt (prompt_text D str prompt default)]
    /\ match res with
       | IoOk v =>
           exists line,
             stdin = rejected ++ line :: rest
             /\ ((strip line = ""%string
                  /\ exists d, default = Some d /\ cast_default d = Ok v)
                 \/ ((strip line = ""%string -> default = None)
                     /\ cast (strip line) = Ok v))
       | IoRaise EOFError => stdin = rejected /\ rest = []
       | IoRaise (Propagated e) =>
           exists line d,
             stdin = rejected ++ line :: rest
             /\ strip line = ""%string /\ default = Some d
             /\ cast_default d = Raise e
       end.
Proof.
  revert res rest out. induction stdin as [ | line lines IH]; intros res rest out H.
  - simpl in H. injection H as <- <- <-. exists []. repeat split. constructor.
  - simpl in H. fold (prompt_text D str prompt default) in H.
    assert (Hcast :
              (strip line = ""%string -> default = None) ->
              match cast (strip line) with
              | Ok v => (IoOk v, lines, [Prompt (prompt_text D str prompt default)])
              | Raise _ =>
                  let '(res, rest', out) :=
                    _f strip A D cast cast_default str prompt default lines in
                  (res, rest',
                   Prompt (prompt_text D str prompt default)
                   :: Line "Invalid. Try again." :: out)
              end = (res, rest, out) ->
              exists rejected,
                Forall (turned_down strip A D cast default) rejected
                /\ out = flat_map (fun _ => [Prompt (prompt_text D str prompt default);
                                             Line "Invalid. Try again."]) rejected
                         ++ [Prompt (prompt_text D str prompt default)]
                /\ match res with
                   | IoOk v =>
                       exists l,
                         line :: lines = rejected ++ l :: rest
                         /\ ((strip l = ""%string
                              /\ exists d, default = Some d /\ cast_default d = Ok v)
                             \/ ((strip l = ""%string -> default = None)
                                 /\ cast (strip l) = Ok v))
                   | IoRaise EOFError => line :: lines = rejected /\ rest = []
                   | IoRaise (Propagated e) =>
                       exists l d,
                         line :: lines = rejected ++ l :: rest
                         /\ strip l = ""%string /\ default = Some d
                         /\ cast_default d = Raise e
                   end).
    { intros Hnd Hc. destruct (cast (strip line)) as [v | e] eqn:Hv.
      - injection Hc as <- <- <-. exists []. split; [constructor | ].
        split; [reflexivity | ]. exists line. split; [reflexivity | ].
        right. now split.
      - destruct (_f strip A D cast cast_default str prompt default lines)
          as [[res' rest'] out'] eqn:Hrec.
        injection Hc as <- <- <-.
        destruct (IH _ _ _ eq_refl) as [rejected [Hrej [Hout Hres]]].
        exists (line :: rejected). split.
        { constructor; [ | exact Hrej]. split; [exact Hnd | now exists e]. }
        split; [simpl; now rewrite Hout | ].
        destruct res' as [v | [ | e']].
        + destruct Hres as [l [Hl Hok]]. exists l. split; [ | exact Hok].
          simpl. now rewrite Hl.
        + destruct Hres as [-> ->]. now split.
        + destruct Hres as [l [d [Hl Hd]]]. exists l, d. split; [ | exact Hd].
          simpl. now rewrite Hl. }
    destruct (strip line =? "")%string eqn:Hempty.
    + apply String.eqb_eq in Hempty. destruct default as [d | ].
      * destruct (cast_default d) as [v | e] eqn:Hd; injection H as <- <- <-;
          exists []; (split; [constructor | ]); (split; [reflexivity | ]).
        -- exists line. split; [reflexivity | ]. left. split; [exact Hempty | ].
           now exists d.
        -- exists line, d. now repeat split.
      * apply Hcast; [reflexivity | exact H].
    + apply String.eqb_neq in Hempty. apply Hcast; [ | exact H].
      intros Hs. contradiction.
Qed.

End PromptingFacts.

Lemma _option_characterised (stdin : list string)
      (res : io_result string) (rest : list string) (out : list output) :
  _option strip lower stdin = (res, rest, out) ->
  exists rejected,
    Forall (fun line => lower (strip line) <> "call"%string
                        /\ lower (strip line) <> "put"%string) rejected
    /\ out = flat_map (fun _ => [Prompt "Option type (call/put): ";
                                 Line "Type 'call' or 'put'."]) rejected
             ++ [Prompt "Option type (call/put): "]
    /\ match res with
       | IoOk o =>
           (o = "call"%string \/ o = "put"%string)
           /\ exists line, stdin = rejected ++ line :: rest
                           /\ lower (strip line) = o
       | IoRaise e => e = EOFError /\ stdin = rejected /\ rest = []
       end.
Proof.
  revert res rest out. induction stdin as [ | line lines IH]; intros res rest out H.
  - simpl in H. injection H as <- <- <-. exists []. repeat split. constructor.
  - simpl in H.
    destruct (lower (strip line) =? "call")%string eqn:Hc.
    { simpl in H. injection H as <- <- <-. apply String.eqb_eq in Hc.
      exists []. split; [constructor | ]. split; [reflexivity | ].
      split; [now left | ]. now exists line. }
    destruct (lower (strip line) =? "put")%string eqn:Hp.
    { simpl in H. injection H as <- <- <-. apply String.eqb_eq in Hp.
      exists []. split; [constructor | ]. split; [reflexivity | ].
      split; [now right | ]. now exists line. }
    simpl in H. apply String.eqb_neq in Hc, Hp.
    destruct (_option strip lower lines) as [[res' rest'] out'] eqn:Hrec.
    injection H as <- <- <-.
    destruct (IH _ _ _ eq_refl) as [rejected [Hrej [Hout Hres]]].
    exists (line :: rejected). split; [constructor; [now split | exact Hrej] | ].
    split; [simpl; now rewrite Hout | ].
    destruct res' as [o | e].
    + destruct Hres as [Ho [l [Hl Hlo]]]. split; [exact Ho | ].
      exists l. split; [simpl; now rewrite Hl | exact Hlo].
    + destruct Hres as [-> [-> ->]]. now repeat split.
Qed.






End ConsoleFacts.




(** One step of a console computation: the first call either returned, and
    the computation goes on, or raised, and its exception is the result. *)
Tactic Notation "io_step" hyp(H) "as" ident(a) ident(Hm) ident(He) :=
  apply io_bind_inv in H;
  destruct H as [[a [?stdin [?out [?out [Hm [H ?Hout]]]]]] | [?e [Hm He]]].


Section ConsoleRuns.

Variables strip lower : string -> string.
Variable float : string -> result R.
Variable format6 : R -> string.

Lemma io_bind_ok {A B : Type} (m : IO A) (k : A -> IO B) (stdin : list string)
      (a : A) (r1 : list string) (o1 : list output) :
  m stdin = (IoOk a, r1, o1) ->
  io_bind m k stdin = (let '(rb, r2, o2) := k a r1 in (rb, r2, o1 ++ o2)).
Proof. intros H. unfold io_bind. now rewrite H. Qed.

Lemma io_bind_raise {A B : Type} (m : IO A) (k : A -> IO B) (stdin : list string)
      (e : io_exn) (r1 : list string) (o1 : list output) :
  m stdin = (IoRaise e, r1, o1) ->
  io_bind m k stdin = (IoRaise e, r1, o1).
Proof. intros H. unfold io_bind. now rewrite H. Qed.

Lemma _f_float_accepts (prompt line : string) (rest : list string) (v : R) :
  float (strip line) = Ok v ->
  _f_float strip float prompt (line :: rest)
  = (IoOk v, rest, [Prompt (prompt ++ ": ")]).
Proof.
  intros H. unfold _f_float. simpl. rewrite H.
  now destruct (strip line =? "")%string.
Qed.

Lemma _option_accepts (line : string) (rest : list string) :
  lower (strip line) = "call"%string \/ lower (strip line) = "put"%string ->
  _option strip lower (line :: rest)
  = (IoOk (lower (strip line)), rest, [Prompt "Option type (call/put): "]).
Proof. intros [H | H]; simpl; rewrite H; reflexivity. Qed.

End ConsoleRuns.

(** X19: [main] does not ask again for a number that [float] accepts but
    the pricer rejects: when the six numbers and the option typed are
    accepted and S, K, T or sigma is zero or negative, [main] reads all
    seven answers and then ends with the [ValueError] of the gate, having
    printed the banner and the seven prompts and no result. *)
Theorem main_stops_at_gate
        (strip lower : string -> string) (float : string -> result R)
        (format6 : R -> string)
        (lS lK lT lr lq lsigma loption : string) (rest : list string)
        (S K T r q sigma : R) :
  float (strip lS) = Ok S -> float (strip lK) = Ok K -> float (strip lT) = Ok T ->
  float (strip lr) = Ok r -> float (strip lq) = Ok q ->
  float (strip lsigma) = Ok sigma ->
  lower (strip loption) = "call"%string \/ lower (strip loption) = "put"%string ->
  S <= 0 \/ K <= 0 \/ T <= 0 \/ sigma <= 0 ->
  main strip lower float format6
    (lS :: lK :: lT :: lr :: lq :: lsigma :: loption :: rest)
  = (IoRaise (Propagated (ValueError gate_msg)), rest,
     [Line "Black–Scholes Options Pricing Model";
      Prompt "Spot S: "; Prompt "Strike K: "; Prompt "Time to expiry T in years: ";
      Prompt "Risk-free rate r (in decimals): ";
      Prompt "Dividend yield q (0 if none): ";
      Prompt "Volatility sigma (in decimals): ";
      Prompt "Option type (call/put): "]).
Proof.
  intros HS HK HT Hr Hq Hsigma Hoption Hinv. unfold main.
  erewrite io_bind_ok by reflexivity.
  erewrite io_bind_ok by (apply _f_float_accepts; exact HS).
  erewrite io_bind_ok by (apply _f_float_accepts; exact HK).
  erewrite io_bind_ok by (apply _f_float_accepts; exact HT).
  erewrite io_bind_ok by (apply _f_float_accepts; exact Hr).
  erewrite io_bind_ok by (apply _f_float_accepts; exact Hq).
  erewrite io_bind_ok by (apply _f_float_accepts; exact Hsigma).
  erewrite io_bind_ok by (apply _option_accepts; exact Hoption).
  erewrite io_bind_raise.
  2:{ unfold call_lib, bs_price. rewrite _d1_d2_invalid by lra.
      reflexivity. }
  reflexivity.
Qed.

Lemma main_stops_at_gate_witness :
  let float := fun s : string =>
    if (s =? "100")%string then Ok 100
    else if (s =? "0")%string then Ok 0
    else Raise (ValueError "could not convert string to float") in
  (100 <= 0 \/ 100 <= 0 \/ 0 <= 0 \/ 100 <= 0)
  /\ exists out,
       main (fun s => s) (fun s => s) float (fun _ => ""%string)
         ["100"; "100"; "0"; "100"; "100"; "100"; "call"; "n"]%string
       = (IoRaise (Propagated (ValueError gate_msg)), ["n"%string], out).
Proof.
  intros float.
  assert (H : 100 <= 0 \/ 100 <= 0 \/ 0 <= 0 \/ 100 <= 0) by lra.
  split; [exact H | ].
  eexists.
  apply (main_stops_at_gate (fun s => s) (fun s => s) float (fun _ => ""%string)
           "100" "100" "0" "100" "100" "100" "call" ["n"%string]
           100 100 0 100 100 100);
    try reflexivity; [now left | exact H].
Defined.

(** X20: when the six numbers and the option typed are accepted, [bs_price]
    and [bs_greeks] return at the values typed, and the answer to the last
    question is not "y", [main] ends normally after eight lines of input,
    and what it printed after the prompts is that price and the five Greeks
    of that record, in the order price, delta, gamma, vega, theta, rho. *)
Theorem main_reports_price_and_greeks
        (strip lower : string -> string) (float : string -> result R)
        (format6 : R -> string)
        (lS lK lT lr lq lsigma loption lanswer : string) (rest : list string)
        (S K T r q sigma price : R) (g : Greeks) :
  float (strip lS) = Ok S -> float (strip lK) = Ok K -> float (strip lT) = Ok T ->
  float (strip lr) = Ok r -> float (strip lq) = Ok q ->
  float (strip lsigma) = Ok sigma ->
  lower (strip loption) = "call"%string \/ lower (strip loption) = "put"%string ->
  lower (strip lanswer) <> "y"%string ->
  bs_price S K T r sigma q (lower (strip loption)) = Ok price ->
  bs_greeks S K T r sigma q (lower (strip loption)) = Ok g ->
  main strip lower float format6
    (lS :: lK :: lT :: lr :: lq :: lsigma :: loption :: lanswer :: rest)
  = (IoOk tt, rest,
     [Line "Black–Scholes Options Pricing Model";
      Prompt "Spot S: "; Prompt "Strike K: ";
      Prompt "Time to expiry T in years: ";
      Prompt "Risk-free rate r (in decimals): ";
      Prompt "Dividend yield q (0 if none): ";
      Prompt "Volatility sigma (in decimals): ";
      Prompt "Option type (call/put): ";
      Line (newline ++ "--- Results ---");
      Line ("Price: " ++ format6 price);
      Line ("Delta: " ++ format6 (delta g));
      Line ("Gamma: " ++ format6 (gamma g));
      Line ("Vega : " ++ format6 (vega g));
      Line ("Theta: " ++ format6 (theta g));
      Line ("Rho  : " ++ format6 (rho g));
      Prompt (newline ++ "Compute implied vol from a market price? (y/n): ")]).
Proof.
  intros HS HK HT Hr Hq Hsigma Hoption Hanswer Hp Hg.
  unfold main.
  erewrite io_bind_ok by reflexivity.
  erewrite io_bind_ok by (apply _f_float_accepts; exact HS).
  erewrite io_bind_ok by (apply _f_float_accepts; exact HK).
  erewrite io_bind_ok by (apply _f_float_accepts; exact HT).
  erewrite io_bind_ok by (apply _f_float_accepts; exact Hr).
  erewrite io_bind_ok by (apply _f_float_accepts; exact Hq).
  erewrite io_bind_ok by (apply _f_float_accepts; exact Hsigma).
  erewrite io_bind_ok by (apply _option_accepts; exact Hoption).
  erewrite io_bind_ok by (unfold call_lib; rewrite Hp; reflexivity).
  erewrite io_bind_ok by (unfold call_lib; rewrite Hg; reflexivity).
  do 7 (erewrite io_bind_ok by reflexivity).
  erewrite io_bind_ok by reflexivity.
  apply String.eqb_neq in Hanswer. rewrite Hanswer.
  reflexivity.
Qed.

Lemma main_reports_price_and_greeks_witness :
  let float := fun s : string =>
    if (s =? "100")%string then Ok 100
    else if (s =? "1")%string then Ok 1
    else Raise (ValueError "could not convert string to float") in
  exists price g out,
    bs_price 100 100 1 1 1 1 "put" = Ok price
    /\ bs_greeks 100 100 1 1 1 1 "put" = Ok g
    /\ main (fun s => s) (fun s => s) float (fun _ => ""%string)
         ["100"; "100"; "1"; "1"; "1"; "1"; "put"; "n"]%string
       = (IoOk tt, [], out).
Proof.
  intros float.
  assert (Hp : bs_price 100 100 1 1 1 1 "put"
               = Ok (Spec.price 100 100 1 1 1 1 Spec.Put))
    by (apply (bs_price_valid 100 100 1 1 1 1 Spec.Put); lra).
  assert (Hg : exists g, bs_greeks 100 100 1 1 1 1 "put" = Ok g)
    by (eexists; apply bs_greeks_put; lra).
  destruct Hg as [g Hg].
  exists (Spec.price 100 100 1 1 1 1 Spec.Put), g. eexists.
  split; [exact Hp | ]. split; [exact Hg | ].
  apply (main_reports_price_and_greeks
           (fun s => s) (fun s => s) float (fun _ => ""%string)
           "100" "100" "1" "1" "1" "1" "put" "n" [] 100 100 1 1 1 1
           (Spec.price 100 100 1 1 1 1 Spec.Put) g);
    try reflexivity; [now right | discriminate | exact Hp | exact Hg].
Defined.

(** X16: [_f] reads lines until one is accepted: it turns down every line
    on whose stripped text [cast] raises (unless the line is blank and a
    default is set), writing the prompt before each line and
    "Invalid. Try again." after each line turned down; it returns [cast] of
    the first other line, or [cast] of the default when that line is blank
    and a default is set (an exception of that call is not caught); at the
    end of input it raises [EOFError]. *)
Theorem prompt_loop_characterised
        (strip : string -> string) (A D : Type)
        (cast : string -> result A) (cast_default : D -> result A)
        (str : D -> string)
        (prompt : string) (default : option D) (stdin : list string) :
  let '(res, rest, out) := _f strip A D cast cast_default str prompt default stdin in
  exists rejected,
    Forall (turned_down strip A D cast default) rejected
    /\ out = flat_map (fun _ => [Prompt (prompt_text D str prompt default);
                                 Line "Invalid. Try again."]) rejected
             ++ [Prompt (prompt_text D str prompt default)]
    /\ match res with
       | IoOk v =>
           exists line,
             stdin = rejected ++ line :: rest
             /\ ((strip line = ""%string
                  /\ exists d, default = Some d /\ cast_default d = Ok v)
                 \/ ((strip line = ""%string -> default = None)
                     /\ cast (strip line) = Ok v))
       | IoRaise EOFError => stdin = rejected /\ rest = []
       | IoRaise (Propagated e) =>
           exists line d,
             stdin = rejected ++ line :: rest
             /\ strip line = ""%string /\ default = Some d
             /\ cast_default d = Raise e
       end.
Proof.
  destruct (_f strip A D cast cast_default str prompt default stdin)
    as [[res rest] out] eqn:H.
  exact (_f_characterised strip A D cast cast_default str prompt default stdin
           res rest out H).
Qed.

(** X17: [_option] reads lines until the stripped, lower-cased text of one
    is "call" or "put", and returns that text: it never returns another
    string.  It writes its prompt before each line and
    "Type 'call' or 'put'." after each line turned down, and raises
    [EOFError] at the end of input. *)
Theorem option_loop_characterised
        (strip lower : string -> string) (stdin : list string) :
  let '(res, rest, out) := _option strip lower stdin in
  exists rejected,
    Forall (fun line => lower (strip line) <> "call"%string
                        /\ lower (strip line) <> "put"%string) rejected
    /\ out = flat_map (fun _ => [Prompt "Option type (call/put): ";
                                 Line "Type 'call' or 'put'."]) rejected
             ++ [Prompt "Option type (call/put): "]
    /\ match res with
       | IoOk o =>
           (o = "call"%string \/ o = "put"%string)
           /\ exists line, stdin = rejected ++ line :: rest
                           /\ lower (strip line) = o
       | IoRaise e => e = EOFError /\ stdin = rejected /\ rest = []
       end.
Proof.
  destruct (_option strip lower stdin) as [[res rest] out] eqn:H.
  exact (_option_characterised strip lower stdin res rest out H).
Qed.


(** ** The validation gate and the option check over binary64 *)

Section FloatGate.

Import PrimFloat.
Local Open Scope float_scope.

Variables libm_exp libm_log libm_erf : float -> float.

Lemma float_gate_closed (S K T r sigma q : float) :
  ((S <=? 0) || (K <=? 0) || (T <=? 0) || (sigma <=? 0))%bool = true ->
  F64._d1_d2 libm_log S K T r sigma q = F64.Raise (F64.ValueError gate_msg).
Proof.
  intros H. unfold F64._d1_d2, any. simpl existsb.
  destruct (S <=? 0); [reflexivity | ].
  destruct (K <=? 0); [reflexivity | ].
  destruct (T <=? 0); [reflexivity | ].
  destruct (sigma <=? 0); [reflexivity | discriminate].
Qed.

Lemma float_bisection_loop_step
      (target S K T r q : float) (option : string) (tol : float) (n : nat)
      (lo hi : float) :
  F64.bisection_loop libm_exp libm_log libm_erf target S K T r q option tol
    (Datatypes.S n) lo hi
  = F64.bind (F64.bs_price libm_exp libm_log libm_erf S K T r (0.5 * (lo + hi)) q option)
      (fun pmid =>
         if abs (pmid - target) <? tol then F64.Ok (0.5 * (lo + hi))
         else if target <? pmid then
           F64.bisection_loop libm_exp libm_log libm_erf target S K T r q option
             tol n lo (0.5 * (lo + hi))
         else
           F64.bisection_loop libm_exp libm_log libm_erf target S K T r q option
             tol n (0.5 * (lo + hi)) hi).
Proof. reflexivity. Qed.

End FloatGate.

Section FloatGateClaims.

Import PrimFloat.
Local Open Scope float_scope.

(** X21: over binary64, for every C library: when S, K, T or sigma is zero
    or negative (minus zero and minus infinity included; the other inputs
    may be anything, NaN too), the gate [_d1_d2] raises its [ValueError],
    and so do [bs_price] and [bs_greeks] for every option string. *)
Theorem float_gate_rejects
        (libm_exp libm_log libm_erf : float -> float)
        (S K T r sigma q : float) (option : string) :
  ((S <=? 0) || (K <=? 0) || (T <=? 0) || (sigma <=? 0))%bool = true ->
  F64._d1_d2 libm_log S K T r sigma q = F64.Raise (F64.ValueError gate_msg)
  /\ F64.bs_price libm_exp libm_log libm_erf S K T r sigma q option
     = F64.Raise (F64.ValueError gate_msg)
  /\ F64.bs_greeks libm_exp libm_log libm_erf S K T r sigma q option
     = F64.Raise (F64.ValueError gate_msg).
Proof.
  intros H. pose proof (float_gate_closed libm_log S K T r sigma q H) as Hg.
  unfold F64.bs_price, F64.bs_greeks. rewrite Hg. repeat split.
Qed.

Lemma float_gate_rejects_witness :
  ((100 <=? 0) || (100 <=? 0) || (-0 <=? 0) || (nan <=? 0))%bool = true
  /\ F64.bs_price F64.sample_exp F64.sample_log F64.sample_erf
       100 100 (-0) 0.05 nan 0 "call"
     = F64.Raise (F64.ValueError gate_msg).
Proof.
  split; [reflexivity | ].
  apply (float_gate_rejects F64.sample_exp F64.sample_log F64.sample_erf
           100 100 (-0) 0.05 nan 0 "call").
  reflexivity.
Defined.

(** X22: over binary64, for every C library: when S, K or T is zero or
    negative, the solver raises the [ValueError] of the gate, for every
    target, seed, tolerance and budget. *)
Theorem float_solver_rejects
        (libm_exp libm_log libm_erf : float -> float)
        (target S K T r q : float) (option : string)
        (seed tol : float) (max_iter : Z) :
  ((S <=? 0) || (K <=? 0) || (T <=? 0))%bool = true ->
  F64.implied_vol libm_exp libm_log libm_erf target S K T r q option
    seed tol max_iter
  = F64.Raise (F64.ValueError gate_msg).
Proof.
  intros H.
  assert (Hp : forall sigma,
             F64.bs_price libm_exp libm_log libm_erf S K T r sigma q option
             = F64.Raise (F64.ValueError gate_msg)).
  { intros sigma. unfold F64.bs_price.
    rewrite (float_gate_closed libm_log S K T r sigma q); [reflexivity | ].
    rewrite H. reflexivity. }
  unfold F64.implied_vol.
  destruct (Z.to_nat max_iter) as [ | n].
  - cbn [F64.newton_loop F64.bind].
    change 200%nat with (Datatypes.S 199).
    rewrite float_bisection_loop_step, Hp. reflexivity.
  - cbn [F64.newton_loop]. rewrite Hp. reflexivity.
Qed.

Lemma float_solver_rejects_witness :
  ((100 <=? 0) || (neg_infinity <=? 0) || (1 <=? 0))%bool = true
  /\ F64.implied_vol F64.sample_exp F64.sample_log F64.sample_erf
       10 100 neg_infinity 1 0.05 0 "call" nan 1e-8 0
     = F64.Raise (F64.ValueError gate_msg).
Proof.
  split; [reflexivity | ].
  apply (float_solver_rejects F64.sample_exp F64.sample_log F64.sample_erf).
  reflexivity.
Defined.

(** X23: over binary64, for every C library and every input: [bs_price]
    returns a price for the option strings "call" and "put" only. *)
Theorem float_price_checks_option
        (libm_exp libm_log libm_erf : float -> float)
        (S K T r sigma q : float) (option : string) (p : float) :
  F64.bs_price libm_exp libm_log libm_erf S K T r sigma q option = F64.Ok p ->
  option = "call"%string \/ option = "put"%string.
Proof.
  unfold F64.bs_price.
  destruct (F64._d1_d2 libm_log S K T r sigma q) as [[d1 d2] | e];
    cbn [F64.bind]; [ | discriminate].
  destruct (F64.math_exp libm_exp (- r * T)) as [disc_r | e];
    cbn [F64.bind]; [ | discriminate].
  destruct (F64.math_exp libm_exp (- q * T)) as [disc_q | e];
    cbn [F64.bind]; [ | discriminate].
  destruct (option =? "call")%string eqn:Hc.
  { intros _. left. now apply String.eqb_eq. }
  destruct (option =? "put")%string eqn:Hp.
  { intros _. right. now apply String.eqb_eq. }
  discriminate.
Qed.

Lemma float_price_checks_option_witness :
  F64.bs_price F64.sample_exp F64.sample_log F64.sample_erf
    100 100 1e308 0 4 0 "put" = F64.Ok 0
  /\ ("put" = "call" \/ "put" = "put")%string.
Proof.
  assert (H : F64.bs_price F64.sample_exp F64.sample_log F64.sample_erf
                100 100 1e308 0 4 0 "put" = F64.Ok 0) by reflexivity.
  split; [exact H | ].
  exact (float_price_checks_option _ _ _ _ _ _ _ _ _ _ _ H).
Defined.

End FloatGateClaims.
